(** * lrrbot: the Pokemon TCG card importer and the YouTube chat helper

    A shallow embedding of [build_carddb_ptcg.py] (the paging of the
    fetch, grouping of the fetched cards, generation of the display names
    with their [hidden] flag, the description text with its cost notation,
    the hard-coded overrides of [get_hacks], the loader) and of
    [check_message_length] from [common/youtube.py], followed by the
    properties of these functions.

    Python exceptions are modelled in the error monad [sum pyexc] of ExtLib:
    [inl e] is an exception that propagates, [inr v] a returned value.
    Python [str] values of the card data are Rocq strings (UTF-8 bytes); a
    generator is modelled by the list of the values it yields. The method
    [str.upper] is a parameter of the development (class [StrUpper]). *)

From Stdlib Require Import List String Ascii Bool Arith ZArith Lia DecimalString.
From Stdlib Require Import Permutation DecimalNat.
From ExtLib Require Import Structures.Monad Structures.MonadExc Data.Monads.EitherMonad.
Import ListNotations.
Import MonadNotation.
Local Open Scope monad_scope.
Local Open Scope string_scope.

(** ** Python values and exceptions *)

Inductive pyexc : Type :=
| KeyError (key : string)
| ValueError
| TypeError
| ZeroDivisionError
| UnicodeEncodeError (codepoint : Z).

(** A computation that returns an [A] or raises. *)
Abbreviation py := (sum pyexc).

(** [for x in l: res.append(f(x))] where [f] may raise: the first exception
    ends the loop. *)
Fixpoint mapM {A B : Type} (f : A -> py B) (l : list A) : py (list B) :=
  match l with
  | [] => ret []
  | x :: xs => y <- f x ;; ys <- mapM f xs ;; ret (y :: ys)
  end.

(** [''.join(pieces)] *)
Definition join (pieces : list string) : string := String.concat "" pieces.

(** [str(n)] for a non-negative [int]. *)
Definition str (n : nat) : string := NilEmpty.string_of_uint (Nat.to_uint n).

(** Truthiness of a [str]: the empty string is falsy. *)
Definition nonempty (s : string) : bool := negb (s =? "").

(** [d[k]] on a dictionary given by its items: [KeyError] when absent. *)
Fixpoint getitem {V : Type} (d : list (string * V)) (k : string) : py V :=
  match d with
  | [] => raise (KeyError k)
  | (k', v) :: d' => if k' =? k then ret v else getitem d' k
  end.

(** [k in d] *)
Definition contains {V : Type} (d : list (string * V)) (k : string) : bool :=
  existsb (fun kv => fst kv =? k) d.

(** [s.upper()] maps every cased letter as the Unicode character database
    says; that table is not modelled. The development is parametric in the
    method, so what it proves holds for the method of Python. *)
Class StrUpper : Type := upper : string -> string.

(** [s.upper()] on an ASCII string: the letters a to z are mapped. It serves
    to run the importer on the sample cards, whose set identifiers are
    ASCII. *)
Definition upper_ascii (c : ascii) : ascii :=
  let n := nat_of_ascii c in
  if (97 <=? n)%nat && (n <=? 122)%nat then ascii_of_nat (n - 32) else c.

Fixpoint ascii_upper (s : string) : string :=
  match s with
  | EmptyString => EmptyString
  | String c s' => String (upper_ascii c) (ascii_upper s')
  end.

#[global] Instance ascii_StrUpper : StrUpper := ascii_upper.

(** ** build_carddb_ptcg.py: the data *)

Definition TYPEABBR : list (string * string) :=
  [ ("Colorless", "C");
    ("Darkness", "D");
    ("Dragon", "N");
    ("Grass", "G");
    ("Fairy", "Y");
    ("Fighting", "F");
    ("Fire", "R");
    ("Lightning", "L");
    ("Metal", "M");
    ("Psychic", "P");
    ("Water", "W") ].

(** [card['set']]: [ptcgoCode] may be absent. *)
Record card_set : Type := mk_set {
  set_id : string;
  ptcgoCode : option string;
  releaseDate : string
}.

(** An entry of [card['abilities']], [card['attacks']] or
    [card['ancientTrait']]; the keys read with [.get] or tested with [in]
    may be absent. *)
Record rule : Type := mk_rule {
  rule_type : option string;
  rule_cost : option (list string);
  rule_name : string;
  rule_damage : option string;
  rule_text : option string
}.

(** An entry of [card['weaknesses']] or [card['resistances']]. *)
Record typeeff : Type := mk_typeeff {
  eff_type : string;
  eff_value : string
}.

(** A card as the API returns it. The keys read with [card.get(...)] are
    only tested for truthiness, so an absent list is the empty list;
    [retreatCost] is tested with [in], so absence is kept apart. *)
Record card : Type := mk_card {
  name : string;
  supertype : string;
  number : string;
  cset : card_set;
  types : list string;
  hp : option string;
  subtypes : list string;
  evolvesFrom : option string;
  rules : list string;
  ancientTrait : option rule;
  abilities : list rule;
  attacks : list rule;
  weaknesses : list typeeff;
  resistances : list typeeff;
  retreatCost : option (list string)
}.

Definition is_pokemon (c : card) : bool := supertype c =? "Pokémon".

(** ** The cost notation *)

Definition setcode `{U : StrUpper} (c : card) : string :=
  match ptcgoCode (cset c) with
  | Some code => if nonempty code then code else upper (set_id (cset c))
  | None => upper (set_id (cset c))
  end.

Definition cost (costs : list string) (colorlesscount : bool) : py string :=
  let '(res, costs) :=
    if colorlesscount then
      let costs := filter (fun i => negb (i =? "Free")) costs in
      let count := List.length (filter (fun i => i =? "Colorless") costs) in
      if negb (count =? 0)%nat || (List.length costs =? 0)%nat then
        ([str count], filter (fun i => negb (i =? "Colorless")) costs)
      else ([], costs)
    else ([], costs) in
  letters <- mapM (getitem TYPEABBR) costs ;;
  ret (join (res ++ letters)%list).

(** [cost(costs)], with the default [colorlesscount=True] every caller uses. *)
Definition cost_default (costs : list string) : py string := cost costs true.


(** ** The description text *)

(** The strings yielded by a loop [for i, x in enumerate(l)] that yields
    [sep] before every item but the first. *)
Definition separated (sep : string) (items : list (list string)) : list string :=
  match items with
  | [] => []
  | first :: others => first ++ flat_map (fun item => sep :: item) others
  end.

(** What [gen_text] yields under [if card.get(key):] for a string value. *)
Definition if_get (value : option string) (pieces : string -> list string) : list string :=
  match value with
  | Some s => if nonempty s then pieces s else []
  | None => []
  end.

(** The body of the loop over [rules] in [gen_text]. *)
Definition rule_text_pieces (r : rule) : py (list string) :=
  costpieces <-
    match rule_cost r with
    | Some costs => c <- cost_default costs ;; ret ["{"; c; "} "]
    | None => ret []
    end ;;
  ret (if_get (rule_type r)
         (fun t => if negb (t =? "Ability") then ["["; t; "] "] else [])
       ++ costpieces
       ++ [rule_name r]
       ++ if_get (rule_damage r) (fun d => [" ("; d; ")"])
       ++ if_get (rule_text r) (fun t => [": "; t]))%list.

Definition typeeff_pieces (t : typeeff) : list string := [eff_type t; eff_value t].

(** [card['ancientTrait']['type'] = 'Ancient Trait'] *)
Definition as_ancient_trait (r : rule) : rule :=
  mk_rule (Some "Ancient Trait") (rule_cost r) (rule_name r) (rule_damage r) (rule_text r).

(** The strings [gen_text(card)] yields; the weaknesses, the resistances and
    the retreat cost are under [if rules:], as in the source. *)
Definition gen_text `{U : StrUpper} (c : card) : py (list string) :=
  let rules_ :=
    ((match ancientTrait c with Some t => [as_ancient_trait t] | None => [] end)
    ++ abilities c ++ attacks c)%list in
  rulepieces <- mapM rule_text_pieces rules_ ;;
  retreat <-
    match rules_, retreatCost c with
    | _ :: _, Some costs => r <- cost_default costs ;; ret [" | retreat: {"; r; "}"]
    | _, _ => ret []
    end ;;
  ret ([name c]
       ++ (if is_pokemon c then [" ("; setcode c; " "; number c; ")"] else [])
       ++ [" | "; supertype c]
       ++ (match types c with [] => [] | ts => [" {"; String.concat "/" ts; "}"] end)
       ++ if_get (hp c) (fun h => [" ["; h; "HP]"])
       ++ (match subtypes c with [] => [] | sts => [" — "; String.concat " " sts] end)
       ++ if_get (evolvesFrom c) (fun e => [" [evolves from: "; e; "]"])
       ++ (match rules c with [] => [] | rs => " | " :: separated " / " (map (fun r => [r]) rs) end)
       ++ (match rules_ with
           | [] => []
           | _ :: _ =>
               " | " :: separated " / " rulepieces
               ++ (match weaknesses c with
                   | [] => []
                   | ws => " | weak: " :: separated ", " (map typeeff_pieces ws)
                   end)
               ++ (match resistances c with
                   | [] => []
                   | rs => " | resist: " :: separated ", " (map typeeff_pieces rs)
                   end)
               ++ retreat
           end))%list.

(** ** The display names *)

(** The pairs [(cardname, hidden)] that [gen_cardnames] yields. *)
Definition gen_cardnames `{U : StrUpper} (c : card) (unique setunique : bool)
  : list (string * bool) :=
  if is_pokemon c then
    ([((name c ++ " (" ++ setcode c ++ " " ++ number c ++ ")")%string, unique || setunique)]
     ++ (if setunique then [((name c ++ " (" ++ setcode c ++ ")")%string, unique)] else [])
     ++ (if unique then [(name c, false)] else []))%list
  else
    [(name c, false)].

(** ** The hard-coded overrides *)

Definition get_hacks (cardname filteredname : string) (c : card) : string * string * bool :=
  let skip := false in
  let filteredname :=
    if (name c =? "Unown") && (number c =? "!")
    then filteredname ++ "exclamation" else filteredname in
  let filteredname :=
    if (name c =? "Unown") && (number c =? "?")
    then filteredname ++ "question" else filteredname in
  let skip :=
    if existsb (String.eqb (name c)) ["Chansey ex"; "Electabuzz ex"; "Magmar ex"]
       && (cardname =? name c)
    then true else skip in
  (cardname, filteredname, skip).

(** ** Grouping, rows and the loader

    [clean_text] and [CARD_GAME_PTCG] come from [common/card.py], which is
    not part of these sources: they are parameters of the importer. *)

(** A row that [process_card] yields; its card is the fetched object, as
    [gen_text] has left it. *)
Record row : Type := mk_row {
  row_cardname : string;
  row_filteredname : string;
  row_description : string;
  row_hidden : bool;
  row_card : card
}.

(** A row of the [cards] table. *)
Record db_row : Type := mk_db_row {
  db_game : Z;
  db_filteredname : string;
  db_name : string;
  db_text : string;
  db_hidden : bool
}.

(** [names[key].append(card)] on a [defaultdict(list)]: the dictionary keeps
    its keys in the order of their first insertion. *)
Fixpoint dict_append (key : string) (c : card) (names : list (string * list card))
  : list (string * list card) :=
  match names with
  | [] => [(key, [c])]
  | (k, group) :: names' =>
      if k =? key then (k, (group ++ [c])%list) :: names'
      else (k, group) :: dict_append key c names'
  end.

(** One step of [max(group, key=...)] on string keys: the item kept so far
    stays unless the next one has a strictly greater key. Python compares
    [str] by code points, which on UTF-8 bytes is the order of
    [String.compare]. *)
Definition keep_greater {A : Type} (key : A -> string) (maxitem item : A) : A :=
  if String.ltb (key maxitem) (key item) then item else maxitem.

(** [max(l, key=key)]; [ValueError] on an empty sequence. *)
Definition py_max {A : Type} (key : A -> string) (l : list A) : py A :=
  match l with
  | [] => raise ValueError
  | first :: others => ret (fold_left (keep_greater key) others first)
  end.

(** [len(group)] and [len([c for c in group if c['set']['id'] == card['set']['id']])],
    the N and M of the naming policy, and the two tests [process_card]
    makes on them. *)
Definition group_size (group : list card) : nat := List.length group.

Definition same_set_count (c : card) (group : list card) : nat :=
  List.length (filter (fun c' => set_id (cset c') =? set_id (cset c)) group).

Definition unique_in (group : list card) : bool := Nat.leb (group_size group) 1.

Definition setunique_in (c : card) (group : list card) : bool :=
  Nat.leb (same_set_count c group) 1.

(** The card once [gen_text] has run on it: [gen_text] sets
    [card['ancientTrait']['type'] = 'Ancient Trait'] in place, on the object
    that the groups and the rows hold. Nothing else of the card changes, and
    the grouping and the names read other keys. *)
Definition after_gen_text (c : card) : card :=
  mk_card (name c) (supertype c) (number c) (cset c) (types c) (hp c) (subtypes c)
          (evolvesFrom c) (rules c) (option_map as_ancient_trait (ancientTrait c))
          (abilities c) (attacks c) (weaknesses c) (resistances c) (retreatCost c).

Section Importer.

Variable clean_text : string -> string.
Variable CARD_GAME_PTCG : Z.
Context `{U : StrUpper}.

(** The loop [for card in cards: names[clean_text(card['name'])].append(card)]
    of both grouping functions, from a given state of [names]. *)
Definition fill_names (cards : list card) (names : list (string * list card))
  : list (string * list card) :=
  fold_left (fun names c => dict_append (clean_text (name c)) c names) cards names.

(** [names] after the loop, from the empty [defaultdict(list)]. *)
Definition names_of (cards : list card) : list (string * list card) :=
  fill_names cards [].

Definition group_pkmn_cards (cards : list card) : list (list card) :=
  map snd (names_of cards).

Definition group_other_cards (cards : list card) : py (list (list card)) :=
  mapM (fun group => m <- py_max (fun c => releaseDate (cset c)) group ;; ret [m])
       (map snd (names_of cards)).

(** [group_cards], on the cards that [fetch_cards] yields. *)
Definition group_cards (fetched : list card) : py (list (list card)) :=
  let pkmn_cards := filter is_pokemon fetched in
  let other_cards := filter (fun c => negb (is_pokemon c)) fetched in
  others <- group_other_cards other_cards ;;
  ret (group_pkmn_cards pkmn_cards ++ others)%list.

(** The description is joined before the first row is yielded, so an
    exception of [gen_text] leaves no row, and the rows yield the card as
    [gen_text] has changed it. *)
Definition process_card (c : card) (group : list card) : py (list row) :=
  let unique := unique_in group in
  let setunique := setunique_in c group in
  pieces <- gen_text c ;;
  let description := join pieces in
  ret (map (fun '(cardname, hidden) =>
              mk_row cardname (clean_text cardname) description hidden (after_gen_text c))
           (gen_cardnames c unique setunique)).

(** The inner loop of [iter_cards]: the rows of one group. *)
Definition iter_group (group : list card) : py (list row) :=
  rows <- mapM (fun c => process_card c group) group ;;
  ret (List.concat rows).

Definition iter_cards (fetched : list card) : py (list row) :=
  groups <- group_cards fetched ;;
  rows <- mapM iter_group groups ;;
  ret (List.concat rows).

(** The body of the loop of [main]: the rows it inserts. *)
Definition insert_rows (rows : list row) : list db_row :=
  flat_map
    (fun r =>
       let '(cardname, filteredname, skip) :=
         get_hacks (row_cardname r) (row_filteredname r) (row_card r) in
       if skip then []
       else [mk_db_row CARD_GAME_PTCG filteredname cardname (row_description r) (row_hidden r)])
    rows.

(** [main] on the table [cards]: the rows of the game are deleted and the
    new ones inserted; an exception leaves the transaction uncommitted. *)
Definition main (fetched : list card) (table : list db_row) : py (list db_row) :=
  rows <- iter_cards fetched ;;
  ret (filter (fun r => negb (db_game r =? CARD_GAME_PTCG)%Z) table ++ insert_rows rows)%list.

End Importer.

(** Modelled from the spec: [clean_text] of [common/card.py] is missing from
    the sources; the glossary describes it as a key that folds case and drops
    whitespace and punctuation. This model keeps the ASCII letters, in lower
    case, and the digits; it serves to run the importer on sample cards. *)
Definition clean_char (c : ascii) : option ascii :=
  let n := nat_of_ascii c in
  if (65 <=? n)%nat && (n <=? 90)%nat then Some (ascii_of_nat (n + 32))
  else if (97 <=? n)%nat && (n <=? 122)%nat then Some c
  else if (48 <=? n)%nat && (n <=? 57)%nat then Some c
  else None.

Fixpoint clean_text_model (s : string) : string :=
  match s with
  | EmptyString => EmptyString
  | String c s' =>
      match clean_char c with
      | Some c' => String c' (clean_text_model s')
      | None => clean_text_model s'
      end
  end.

(** ** common/youtube.py: the message length check *)

(** The values [check_message_length] computes with; [bytes] are given by
    their items, a [str] by its code points. *)
Inductive pyval : Type :=
| PyInt (n : Z)
| PyBool (b : bool)
| PyBytes (items : list Z).

(** [bool] is a subclass of [int]. *)
Definition as_int (v : pyval) : option Z :=
  match v with
  | PyInt n => Some n
  | PyBool b => Some (if b then 1 else 0)%Z
  | PyBytes _ => None
  end.

(** [a // b] *)
Definition floordiv (a b : pyval) : py pyval :=
  match as_int a, as_int b with
  | Some x, Some y => if (y =? 0)%Z then raise ZeroDivisionError else ret (PyInt (x / y))
  | _, _ => raise TypeError
  end.

Fixpoint bytes_le (a b : list Z) : bool :=
  match a, b with
  | [], _ => true
  | _ :: _, [] => false
  | x :: a', y :: b' => (x <? y)%Z || ((x =? y)%Z && bytes_le a' b')
  end.

(** [a <= b] *)
Definition le (a b : pyval) : py pyval :=
  match as_int a, as_int b with
  | Some x, Some y => ret (PyBool (x <=? y)%Z)
  | None, None =>
      match a, b with
      | PyBytes x, PyBytes y => ret (PyBool (bytes_le x y))
      | _, _ => raise TypeError
      end
  | _, _ => raise TypeError
  end.

Definition is_surrogate (cp : Z) : bool := ((55296 <=? cp) && (cp <=? 57343))%Z.

(** The two bytes of a 16-bit unit, low byte first. *)
Definition utf16_unit_le (u : Z) : list Z := [Z.land u 255; Z.shiftr u 8].

(** [message.encode('utf-16-le')]: a lone surrogate is refused, a code point
    above the basic plane becomes a surrogate pair. *)
Fixpoint encode_utf_16_le (message : list Z) : py (list Z) :=
  match message with
  | [] => ret []
  | cp :: message' =>
      if is_surrogate cp then raise (UnicodeEncodeError cp)
      else
        rest <- encode_utf_16_le message' ;;
        if (cp <? 65536)%Z then ret (utf16_unit_le cp ++ rest)%list
        else
          let v := (cp - 65536)%Z in
          ret (utf16_unit_le (55296 + Z.shiftr v 10)
               ++ utf16_unit_le (56320 + Z.land v 1023)
               ++ rest)%list
  end.

Definition check_message_length (message : list Z) (max_len : Z) : py pyval :=
  encoded <- encode_utf_16_le message ;;
  length <- floordiv (PyBytes encoded) (PyInt 2) ;;
  le length (PyInt max_len).

(** ** The naming policy in the words of the specification *)

(** The three display names of a card: "Name (SET NUM)", "Name (SET)", "Name". *)
Definition name_set_num `{U : StrUpper} (c : card) : string :=
  name c ++ " (" ++ setcode c ++ " " ++ number c ++ ")".

Definition name_set `{U : StrUpper} (c : card) : string :=
  name c ++ " (" ++ setcode c ++ ")".

(** The names generated for a card of a group, as [process_card] asks for them. *)
Definition cardnames_in `{U : StrUpper} (c : card) (group : list card) : list (string * bool) :=
  gen_cardnames c (unique_in group) (setunique_in c group).

(** A row is shown in the listings when it is not hidden. *)
Definition visible (hidden : bool) : bool := negb hidden.

(** The rows whose display name is the bare name of their card. *)
Definition is_bare (r : row) : bool := row_cardname r =? name (row_card r).

Definition bare_rows (rows : list row) : list row := filter is_bare rows.

(** The tokens of a cost that are rendered as letters. *)
Definition typed_tokens (costs : list string) : list string :=
  filter (fun i => negb (i =? "Free") && negb (i =? "Colorless")) costs.

(** The number printed in front of the letters: the count of "Colorless"
    when it is positive or when nothing but "Free" was given, else nothing. *)
Definition count_prefix (costs : list string) : string :=
  let count := List.length (filter (fun i => i =? "Colorless") costs) in
  if negb (Nat.eqb count 0) || forallb (fun i => i =? "Free") costs then str count else "".

Definition ex_names : list string := ["Chansey ex"; "Electabuzz ex"; "Magmar ex"].

(** The policy as the specification words it, for a creature card [c] of
    [group]: its size is N, [same_set_count c group] is M.

    "Name (SET NUM)" is generated and is visible exactly when N = 1 or M = 1. *)
Definition name_set_num_visible_claim `{U : StrUpper} (c : card) (group : list card) : Prop :=
  exists hidden,
    In (name_set_num c, hidden) (cardnames_in c group)
    /\ (visible hidden = true <-> group_size group = 1 \/ same_set_count c group = 1).

(** "Name (SET)" is generated exactly when M = 1 and is then visible exactly
    when N = 1. *)
Definition name_set_visible_claim `{U : StrUpper} (c : card) (group : list card) : Prop :=
  ((exists hidden, In (name_set c, hidden) (cardnames_in c group))
   <-> same_set_count c group = 1)
  /\ (forall hidden, In (name_set c, hidden) (cardnames_in c group) ->
      (visible hidden = true <-> group_size group = 1)).

(** "Name" is generated exactly when N = 1 and is then always hidden. *)
Definition bare_name_hidden_claim `{U : StrUpper} (c : card) (group : list card) : Prop :=
  ((exists hidden, In (name c, hidden) (cardnames_in c group))
   <-> group_size group = 1)
  /\ (forall hidden, In (name c, hidden) (cardnames_in c group) -> hidden = true).

(** The rows of a creature group hold exactly one bare name, which is not
    hidden only if the group has one member. *)
Definition one_bare_row_claim `{U : StrUpper} (clean_text : string -> string) (group : list card) : Prop :=
  exists rows,
    iter_group clean_text group = inr rows
    /\ List.length (bare_rows rows) = 1
    /\ (forall r, In r (bare_rows rows) -> row_hidden r = false -> group_size group = 1).

(** The length check raises [TypeError] on every message. *)
Definition always_TypeError_claim : Prop :=
  forall (message : list Z) (max_len : Z),
    check_message_length message max_len = inl TypeError.

(** ** Sample cards *)

Definition sample_card (nm supertype_ num sid date : string) (code : option string)
  (atk : list rule) : card :=
  mk_card nm supertype_ num (mk_set sid code date) [] None [] None [] None [] atk [] [] None.

Definition thunder_jolt : rule :=
  mk_rule None (Some ["Colorless"; "Lightning"]) "Thunder Jolt" (Some "30") None.

Definition pikachu_base : card :=
  sample_card "Pikachu" "Pokémon" "58" "base1" "1999/01/09" (Some "BS") [thunder_jolt].

Definition pikachu_jungle : card :=
  sample_card "Pikachu" "Pokémon" "60" "base2" "1999/06/16" (Some "JU") [thunder_jolt].

Definition unown_exclamation : card :=
  sample_card "Unown" "Pokémon" "!" "neo2" "2001/06/01" None [].

Definition unown_question : card :=
  sample_card "Unown" "Pokémon" "?" "neo2" "2001/06/01" None [].

Definition chansey_ex : card :=
  sample_card "Chansey ex" "Pokémon" "96" "ex5" "2004/06/01" None [].

Definition potion (sid date : string) : card :=
  sample_card "Potion" "Trainer" "94" sid date None [].

(** ** Descriptions of the grouping, for the properties *)

(** The keys of a list in the order of their first occurrence, skipping the
    keys already seen. *)
Fixpoint first_seen (seen keys : list string) : list string :=
  match keys with
  | [] => []
  | k :: keys' =>
      if existsb (fun s => s =? k) seen then first_seen seen keys'
      else k :: first_seen (seen ++ [k]) keys'
  end.

(** The group that [group_other_cards] keeps of a group of one name: its
    card of greatest release date, the first of them. *)
Definition latest_of (group : list card) : list card :=
  match group with
  | [] => []
  | first :: others =>
      [fold_left (keep_greater (fun c => releaseDate (cset c))) others first]
  end.

(** ** Descriptions of the text, for the properties *)

(** The list [rules] that [gen_text] builds: the ancient trait, the
    abilities and the attacks. *)
Definition rules_of (c : card) : list rule :=
  ((match ancientTrait c with Some t => [as_ancient_trait t] | None => [] end)
   ++ abilities c ++ attacks c)%list.


(** The card with other weaknesses, resistances and retreat cost. *)
Definition with_effects (c : card) (ws rs : list typeeff) (rc : option (list string))
  : card :=
  mk_card (name c) (supertype c) (number c) (cset c) (types c) (hp c) (subtypes c)
          (evolvesFrom c) (rules c) (ancientTrait c) (abilities c) (attacks c) ws rs rc.

(** ** Descriptions of the table, for the properties *)

(** The rows of the table that [DELETE FROM cards WHERE game = %s] keeps,
    and the rows it deletes. *)
Definition other_game (game : Z) (r : db_row) : bool := negb (db_game r =? game)%Z.

Definition of_game (game : Z) (r : db_row) : bool := (db_game r =? game)%Z.

(** ** fetch_cards

    The HTTP request and the JSON decoding are a parameter: [urlopen url] is
    the decoded response [(dat['data'], dat['totalCount'])] of the catalog
    for a URL, or the exception of the request. The [while True] loop runs
    on a number of steps; [None] is a loop that has not ended within them.
    A run that ends gives the lines printed, the cards yielded, and how the
    generator ended: exhausted, or by an exception, raised after the lines
    and cards before it. *)

(** [URL % page] *)
Definition URL (page : nat) : string :=
  "https://api.pokemontcg.io/v2/cards?pageSize=250&page=" ++ str page.

Section Fetcher.

Variable urlopen : string -> py (list card * nat).

Fixpoint fetch_cards_loop (steps page count total : nat)
  : option (list string * list card * py unit) :=
  match steps with
  | O => None
  | S steps' =>
      let line := str count ++ "/" ++ str total in
      match urlopen (URL page) with
      | inl e => Some ([line], [], inl e)
      | inr ([], _) => Some ([line], [], inr tt)
      | inr (data, totalCount) =>
          match fetch_cards_loop steps' (page + 1) (count + List.length data) totalCount with
          | None => None
          | Some (lines, cards, ending) =>
              Some (line :: lines, (data ++ cards)%list, ending)
          end
      end
  end.

Definition fetch_cards (steps : nat) : option (list string * list card * py unit) :=
  fetch_cards_loop steps 1 0 0.

End Fetcher.

(** A catalog that serves the given pages, then empty pages. *)
Definition catalog (pages : list (list card * nat)) (url : string)
  : py (list card * nat) :=
  match find (fun ip => URL (S (fst ip)) =? url)
             (combine (seq 0 (List.length pages)) pages) with
  | Some (_, page) => inr page
  | None => inr ([], 0)
  end.

(** * Properties *)

(** ** Strings, loops and lookups *)

Lemma length_append (s t : string) :
  String.length (s ++ t) = String.length s + String.length t.
Proof. induction s as [|a s IH]; simpl; [reflexivity | now rewrite IH]. Qed.

Lemma append_empty_r (s : string) : s ++ "" = s.
Proof. induction s as [|a s IH]; simpl; [reflexivity | now rewrite IH]. Qed.

Lemma append_inj_l (p s t : string) : p ++ s = p ++ t -> s = t.
Proof.
  induction p as [|a p IH]; simpl; intros H; [exact H|].
  injection H as H. now apply IH.
Qed.

Lemma join_cons (x : string) (l : list string) : join (x :: l) = x ++ join l.
Proof.
  unfold join. destruct l as [|y l]; simpl.
  - now rewrite append_empty_r.
  - reflexivity.
Qed.

Lemma mapM_inl {A B : Type} (f : A -> py B) (l : list A) (e : pyexc) :
  mapM f l = inl e -> exists x, In x l /\ f x = inl e.
Proof.
  induction l as [|x xs IH]; simpl; [discriminate|].
  destruct (f x) as [e'|y] eqn:Hx.
  - intros [= <-]. exists x. auto.
  - destruct (mapM f xs) as [e'|ys]; [|discriminate].
    intros [= <-]. destruct (IH eq_refl) as (x' & Hin & Hx'). exists x'. auto.
Qed.

Lemma mapM_total {A B : Type} (f : A -> py B) (l : list A) :
  (forall x, In x l -> exists y, f x = inr y) -> exists ys, mapM f l = inr ys.
Proof.
  induction l as [|x xs IH]; simpl; intros H.
  - now exists [].
  - destruct (H x (or_introl eq_refl)) as [y ->].
    destruct IH as [ys ->]; [intros; apply H; now right|].
    now exists (y :: ys).
Qed.

Lemma mapM_inr_all {A B : Type} (f : A -> py B) (l : list A) (ys : list B) :
  mapM f l = inr ys -> forall x, In x l -> exists y, f x = inr y.
Proof.
  revert ys. induction l as [|x xs IH]; simpl; intros ys H x' Hin; [contradiction|].
  destruct (f x) as [e|y] eqn:Hx; [discriminate|].
  destruct (mapM f xs) as [e|ys']; [discriminate|].
  destruct Hin as [<-|Hin]; [now exists y | now apply (IH ys')].
Qed.

Lemma getitem_inr_iff {V : Type} (d : list (string * V)) (k : string) :
  (exists v, getitem d k = inr v) <-> contains d k = true.
Proof.
  unfold contains. induction d as [|[k' v] d IH]; simpl.
  - split; [intros [v H]; discriminate | discriminate].
  - destruct (k' =? k); simpl; [|exact IH].
    split; [reflexivity | intros _; now exists v].
Qed.

Lemma getitem_inl {V : Type} (d : list (string * V)) (k : string) (e : pyexc) :
  getitem d k = inl e -> e = KeyError k /\ contains d k = false.
Proof.
  unfold contains. induction d as [|[k' v] d IH]; simpl.
  - intros [= <-]. auto.
  - destruct (k' =? k); simpl; [discriminate | exact IH].
Qed.

Lemma filter_none {A : Type} (p : A -> bool) (l : list A) :
  List.length (filter p l) = 0 -> filter (fun x => negb (p x)) l = l.
Proof.
  induction l as [|x l IH]; simpl; [reflexivity|].
  destruct (p x); simpl; [discriminate|]. intros H. now rewrite IH.
Qed.

Lemma filter_filter {A : Type} (p q : A -> bool) (l : list A) :
  filter q (filter p l) = filter (fun x => p x && q x) l.
Proof.
  induction l as [|x l IH]; simpl; [reflexivity|].
  destruct (p x); simpl; [destruct (q x); now rewrite IH | exact IH].
Qed.

Lemma filter_not_empty {A : Type} (p : A -> bool) (l : list A) :
  Nat.eqb (List.length (filter (fun x => negb (p x)) l)) 0 = forallb p l.
Proof.
  induction l as [|x l IH]; simpl; [reflexivity|].
  destruct (p x); simpl; [exact IH | reflexivity].
Qed.

(** ** The cost notation *)

Lemma colorless_not_free (costs : list string) :
  filter (fun i => i =? "Colorless") (filter (fun i => negb (i =? "Free")) costs)
  = filter (fun i => i =? "Colorless") costs.
Proof.
  rewrite filter_filter. apply filter_ext. intros a.
  destruct (String.eqb_spec a "Colorless") as [->|]; [reflexivity|].
  now rewrite andb_false_r.
Qed.

Lemma cost_default_unfold (costs : list string) :
  cost_default costs =
  (letters <- mapM (getitem TYPEABBR) (typed_tokens costs) ;;
   ret (count_prefix costs ++ join letters)).
Proof.
  unfold cost_default, cost, count_prefix, typed_tokens.
  rewrite colorless_not_free.
  set (count := List.length (filter (fun i => i =? "Colorless") costs)).
  rewrite (filter_not_empty (fun i => i =? "Free") costs).
  destruct (negb (Nat.eqb count 0) || forallb (fun i => i =? "Free") costs) eqn:Hc.
  - rewrite filter_filter.
    destruct (mapM (getitem TYPEABBR) _); simpl; [reflexivity|].
    now rewrite join_cons.
  - apply orb_false_elim in Hc. destruct Hc as [Hc _].
    apply negb_false_iff, Nat.eqb_eq in Hc. subst count.
    rewrite <- colorless_not_free in Hc. apply filter_none in Hc.
    rewrite <- Hc at 1. rewrite filter_filter.
    destruct (mapM (getitem TYPEABBR) _); reflexivity.
Qed.

(** C6, as amended: ["Colorless","Colorless","Fire"] is rendered "2R" and
    ["Fire"] is rendered "R"; in general the letters of the typed tokens are
    preceded by the count of the colorless tokens as a literal integer when
    that count is positive, by "0" only when no token is left once "Free" is
    removed, and by nothing when there are typed tokens and no colorless
    one. *)
Theorem cost_count_rendering :
  cost_default ["Colorless"; "Colorless"; "Fire"] = inr "2R"
  /\ cost_default ["Fire"] = inr "R"
  /\ cost_default [] = inr "0"
  /\ forall costs letters,
       mapM (getitem TYPEABBR) (typed_tokens costs) = inr letters ->
       let count := List.length (filter (fun i => i =? "Colorless") costs) in
       cost_default costs =
       inr ((if Nat.ltb 0 count then str count
             else if forallb (fun i => i =? "Free") costs then "0"
             else "") ++ join letters).
Proof.
  repeat split; try reflexivity.
  intros costs letters Hl count. rewrite cost_default_unfold, Hl. simpl.
  unfold count_prefix. fold count.
  destruct count as [|n]; simpl; [|reflexivity].
  destruct (forallb _ costs); reflexivity.
Qed.

Lemma cost_count_rendering_witness :
  cost_default ["Colorless"; "Free"; "Grass"; "Colorless"; "Colorless"] = inr "3G".
Proof.
  exact (proj2 (proj2 (proj2 cost_count_rendering))
           ["Colorless"; "Free"; "Grass"; "Colorless"; "Colorless"] ["G"] eq_refl).
Defined.

(** C6, as stated, fails: ["Fire"] is rendered "R", not "0R"; no count is
    printed for a cost that has typed tokens and no colorless one. *)
Lemma cost_fire_not_0R :
  cost_default ["Fire"] = inr "R" /\ cost_default ["Fire"] <> inr "0R".
Proof. split; [reflexivity | vm_compute; discriminate]. Qed.

(** C7: with the default arguments, [cost] raises exactly when a token other
    than "Free" and "Colorless" is not a key of [TYPEABBR]; the exception is
    then the [KeyError] of such a token, and when every remaining token is a
    key, [cost] returns a string. *)
Theorem cost_raises_iff_unmapped (costs : list string) :
  ((exists e, cost_default costs = inl e) <->
   (exists tok, In tok costs /\ tok <> "Free" /\ tok <> "Colorless"
                /\ contains TYPEABBR tok = false))
  /\ (forall e, cost_default costs = inl e ->
        exists tok, e = KeyError tok /\ In tok (typed_tokens costs)
                    /\ contains TYPEABBR tok = false)
  /\ ((forall tok, In tok (typed_tokens costs) -> contains TYPEABBR tok = true) ->
      exists s, cost_default costs = inr s).
Proof.
  assert (Hin : forall tok, In tok (typed_tokens costs) <->
                            In tok costs /\ tok <> "Free" /\ tok <> "Colorless").
  { intros tok. unfold typed_tokens. rewrite filter_In, andb_true_iff.
    rewrite !negb_true_iff, !String.eqb_neq. tauto. }
  assert (Herr : forall e, cost_default costs = inl e ->
                 exists tok, e = KeyError tok /\ In tok (typed_tokens costs)
                             /\ contains TYPEABBR tok = false).
  { intros e. rewrite cost_default_unfold.
    destruct (mapM (getitem TYPEABBR) (typed_tokens costs)) as [e'|letters] eqn:Hm;
      simpl; [|discriminate].
    intros [= <-]. apply mapM_inl in Hm. destruct Hm as (tok & Htok & Hget).
    apply getitem_inl in Hget. destruct Hget as [-> Hc]. now exists tok. }
  assert (Hok : (forall tok, In tok (typed_tokens costs) -> contains TYPEABBR tok = true) ->
                exists s, cost_default costs = inr s).
  { intros Hall. rewrite cost_default_unfold.
    destruct (mapM_total (getitem TYPEABBR) (typed_tokens costs)) as [letters ->].
    - intros tok Htok. apply getitem_inr_iff. now apply Hall.
    - simpl. eauto. }
  split; [|split; assumption].
  split.
  - intros [e He]. destruct (Herr e He) as (tok & _ & Htok & Hc).
    exists tok. apply Hin in Htok. tauto.
  - intros (tok & Htok & Hfree & Hcol & Hc).
    destruct (cost_default costs) as [e|s] eqn:Hcost; [now exists e|].
    exfalso. rewrite cost_default_unfold in Hcost.
    destruct (mapM (getitem TYPEABBR) (typed_tokens costs)) as [e|letters] eqn:Hm;
      simpl in Hcost; [discriminate|].
    destruct (mapM_inr_all _ _ _ Hm tok) as [v Hv]; [apply Hin; tauto|].
    assert (Hc' : contains TYPEABBR tok = true) by (apply getitem_inr_iff; eauto).
    congruence.
Qed.

Lemma cost_raises_iff_unmapped_witness :
  (exists e, cost_default ["Colorless"; "Shadow"] = inl e)
  /\ (exists s, cost_default ["Free"; "Colorless"; "Water"] = inr s).
Proof.
  split.
  - apply (proj1 (cost_raises_iff_unmapped ["Colorless"; "Shadow"])).
    exists "Shadow". repeat split; simpl; auto; discriminate.
  - apply (proj2 (proj2 (cost_raises_iff_unmapped ["Free"; "Colorless"; "Water"]))).
    simpl. intros tok [<-|[]]. reflexivity.
Defined.

(** ** The display names *)

Lemma name_set_num_neq_name_set `{U : StrUpper} (c : card) : name_set_num c <> name_set c.
Proof.
  unfold name_set_num, name_set. intros H.
  apply (f_equal String.length) in H.
  repeat rewrite length_append in H. simpl in H. lia.
Qed.

Lemma name_set_num_neq_name `{U : StrUpper} (c : card) : name_set_num c <> name c.
Proof.
  unfold name_set_num. intros H.
  apply (f_equal String.length) in H.
  repeat rewrite length_append in H. simpl in H. lia.
Qed.

Lemma name_set_neq_name `{U : StrUpper} (c : card) : name_set c <> name c.
Proof.
  unfold name_set. intros H.
  apply (f_equal String.length) in H.
  repeat rewrite length_append in H. simpl in H. lia.
Qed.

Lemma group_size_pos (c : card) (group : list card) :
  In c group -> 1 <= group_size group.
Proof. unfold group_size. destruct group; simpl; [contradiction | lia]. Qed.

Lemma same_set_count_pos (c : card) (group : list card) :
  In c group -> 1 <= same_set_count c group.
Proof.
  intros Hin. unfold same_set_count.
  assert (H : In c (filter (fun c' => set_id (cset c') =? set_id (cset c)) group)).
  { apply filter_In. split; [assumption | apply String.eqb_refl]. }
  destruct (filter _ group); simpl; [contradiction | lia].
Qed.


(** The names of a creature card, by the two tests of [process_card]. *)
Lemma cardnames_in_pokemon `{U : StrUpper} (c : card) (group : list card) :
  is_pokemon c = true ->
  cardnames_in c group =
  ((name_set_num c, unique_in group || setunique_in c group)
   :: (if setunique_in c group then [(name_set c, unique_in group)] else [])
   ++ (if unique_in group then [(name c, false)] else []))%list.
Proof. intros Hp. unfold cardnames_in, gen_cardnames. now rewrite Hp. Qed.

Lemma unique_in_iff (c : card) (group : list card) :
  In c group -> (unique_in group = true <-> group_size group = 1).
Proof.
  intros Hin. pose proof (group_size_pos c group Hin).
  unfold unique_in. rewrite Nat.leb_le. lia.
Qed.

Lemma setunique_in_iff (c : card) (group : list card) :
  In c group -> (setunique_in c group = true <-> same_set_count c group = 1).
Proof.
  intros Hin. pose proof (same_set_count_pos c group Hin).
  unfold setunique_in. rewrite Nat.leb_le. lia.
Qed.

(** C1, as amended: for a creature card of a group of size N with M cards of
    its set, the row "Name (SET NUM)" is always generated, once, and its
    hidden flag is true exactly when N = 1 or M = 1; the row is visible
    exactly when N > 1 and M > 1. *)
Theorem name_set_num_row `{U : StrUpper} (c : card) (group : list card) :
  is_pokemon c = true ->
  In c group ->
  let N := group_size group in
  let M := same_set_count c group in
  exists hidden rest,
    cardnames_in c group = (name_set_num c, hidden) :: rest
    /\ ~ In (name_set_num c) (map fst rest)
    /\ (hidden = true <-> N = 1 \/ M = 1)
    /\ (visible hidden = true <-> N > 1 /\ M > 1).
Proof.
  intros Hp Hin N M.
  pose proof (unique_in_iff c group Hin) as HN.
  pose proof (setunique_in_iff c group Hin) as HM.
  pose proof (group_size_pos c group Hin) as HN1.
  pose proof (same_set_count_pos c group Hin) as HM1.
  fold N in HN, HN1. fold M in HM, HM1.
  rewrite (cardnames_in_pokemon c group Hp).
  eexists. eexists. split; [reflexivity|].
  split; [|split].
  - pose proof (name_set_num_neq_name_set c). pose proof (name_set_num_neq_name c).
    destruct (setunique_in c group), (unique_in group); simpl; intuition congruence.
  - rewrite orb_true_iff. tauto.
  - unfold visible. rewrite negb_true_iff, orb_false_iff.
    rewrite <- !not_true_iff_false. rewrite HN, HM. lia.
Qed.

Lemma name_set_num_row_witness :
  exists hidden rest,
    cardnames_in pikachu_base [pikachu_base; pikachu_jungle]
    = (name_set_num pikachu_base, hidden) :: rest
    /\ ~ In (name_set_num pikachu_base) (map fst rest)
    /\ (hidden = true <-> 2 = 1 \/ 1 = 1)
    /\ (visible hidden = true <-> 2 > 1 /\ 1 > 1).
Proof.
  apply (name_set_num_row pikachu_base [pikachu_base; pikachu_jungle]).
  - reflexivity.
  - simpl. auto.
Defined.

(** C1, as stated, fails on a card alone in its group: its row
    "Pikachu (BS 58)" is hidden although N = 1. *)
Lemma name_set_num_visible_counterexample :
  is_pokemon pikachu_base = true
  /\ In pikachu_base [pikachu_base]
  /\ cardnames_in pikachu_base [pikachu_base]
     = [("Pikachu (BS 58)", true); ("Pikachu (BS)", true); ("Pikachu", false)]
  /\ ~ name_set_num_visible_claim pikachu_base [pikachu_base].
Proof.
  repeat split; [simpl; auto|].
  intros (hidden & Hin & Hiff).
  assert (Hh : hidden = true).
  { vm_compute in Hin. destruct Hin as [H|[H|[H|[]]]]; congruence. }
  subst hidden. destruct Hiff as [_ Hv].
  specialize (Hv (or_introl eq_refl)). discriminate.
Qed.

(** C2, as amended: for a creature card, the row "Name (SET)" is generated
    if and only if M = 1, and when generated its hidden flag is true if and
    only if N = 1, so it is visible if and only if N > 1. *)
Theorem name_set_row `{U : StrUpper} (c : card) (group : list card) :
  is_pokemon c = true ->
  In c group ->
  let N := group_size group in
  let M := same_set_count c group in
  ((exists hidden, In (name_set c, hidden) (cardnames_in c group)) <-> M = 1)
  /\ (forall hidden, In (name_set c, hidden) (cardnames_in c group) ->
      (hidden = true <-> N = 1) /\ (visible hidden = true <-> N > 1)).
Proof.
  intros Hp Hin N M.
  pose proof (unique_in_iff c group Hin) as HN.
  pose proof (setunique_in_iff c group Hin) as HM.
  pose proof (group_size_pos c group Hin) as HN1.
  fold N in HN, HN1. fold M in HM.
  assert (Hrow : forall hidden, In (name_set c, hidden) (cardnames_in c group) ->
                 setunique_in c group = true /\ hidden = unique_in group).
  { intros hidden. rewrite (cardnames_in_pokemon c group Hp).
    pose proof (name_set_num_neq_name_set c). pose proof (name_set_neq_name c).
    destruct (setunique_in c group), (unique_in group); simpl;
      intuition congruence. }
  split.
  - split.
    + intros [hidden Hh]. apply HM. now apply (Hrow hidden).
    + intros HM1. apply HM in HM1. exists (unique_in group).
      rewrite (cardnames_in_pokemon c group Hp), HM1. simpl. auto.
  - intros hidden Hh. destruct (Hrow hidden Hh) as [_ ->]. split; [exact HN|].
    unfold visible. rewrite negb_true_iff, <- not_true_iff_false, HN. lia.
Qed.

Lemma name_set_row_witness :
  ((exists hidden, In (name_set pikachu_base, hidden)
                      (cardnames_in pikachu_base [pikachu_base; pikachu_jungle]))
   <-> 1 = 1)
  /\ (forall hidden, In (name_set pikachu_base, hidden)
                        (cardnames_in pikachu_base [pikachu_base; pikachu_jungle]) ->
      (hidden = true <-> 2 = 1) /\ (visible hidden = true <-> 2 > 1)).
Proof.
  apply (name_set_row pikachu_base [pikachu_base; pikachu_jungle]).
  - reflexivity.
  - simpl. auto.
Defined.

(** C2, as stated, fails on a card alone in its group: its row
    "Pikachu (BS)" is generated and hidden although N = 1. *)
Lemma name_set_visible_counterexample :
  is_pokemon pikachu_base = true
  /\ In pikachu_base [pikachu_base]
  /\ In ("Pikachu (BS)", true) (cardnames_in pikachu_base [pikachu_base])
  /\ ~ name_set_visible_claim pikachu_base [pikachu_base].
Proof.
  repeat split; [simpl; auto | vm_compute; auto |].
  intros [_ Hv].
  destruct (Hv true) as [_ H]; [vm_compute; auto|].
  specialize (H eq_refl). discriminate.
Qed.

(** C3, as amended: for a creature card, the bare row "Name" is generated if
    and only if N = 1, and when generated its hidden flag is always false. *)
Theorem bare_name_row `{U : StrUpper} (c : card) (group : list card) :
  is_pokemon c = true ->
  In c group ->
  ((exists hidden, In (name c, hidden) (cardnames_in c group)) <-> group_size group = 1)
  /\ (forall hidden, In (name c, hidden) (cardnames_in c group) -> hidden = false).
Proof.
  intros Hp Hin.
  pose proof (unique_in_iff c group Hin) as HN.
  assert (Hrow : forall hidden, In (name c, hidden) (cardnames_in c group) ->
                 unique_in group = true /\ hidden = false).
  { intros hidden. rewrite (cardnames_in_pokemon c group Hp).
    pose proof (name_set_num_neq_name c). pose proof (name_set_neq_name c).
    destruct (setunique_in c group), (unique_in group); simpl;
      intuition congruence. }
  split.
  - split.
    + intros [hidden Hh]. apply HN. now apply (Hrow hidden).
    + intros HN1. apply HN in HN1. exists false.
      rewrite (cardnames_in_pokemon c group Hp), HN1.
      apply in_cons, in_or_app. right. now left.
  - intros hidden Hh. now apply (Hrow hidden).
Qed.

Lemma bare_name_row_witness :
  ((exists hidden, In (name pikachu_base, hidden) (cardnames_in pikachu_base [pikachu_base]))
   <-> group_size [pikachu_base] = 1)
  /\ (forall hidden, In (name pikachu_base, hidden) (cardnames_in pikachu_base [pikachu_base]) ->
      hidden = false).
Proof.
  apply (bare_name_row pikachu_base [pikachu_base]).
  - reflexivity.
  - simpl. auto.
Defined.

(** C3, as stated, fails on a card alone in its group: its bare row
    "Pikachu" is generated with the hidden flag false. *)
Lemma bare_name_hidden_counterexample :
  is_pokemon pikachu_base = true
  /\ In pikachu_base [pikachu_base]
  /\ In ("Pikachu", false) (cardnames_in pikachu_base [pikachu_base])
  /\ ~ bare_name_hidden_claim pikachu_base [pikachu_base].
Proof.
  repeat split; [simpl; auto | vm_compute; auto |].
  intros [_ Hh].
  specialize (Hh false). discriminate Hh. vm_compute. auto.
Qed.

(** C4: for a card that is not a creature, exactly one row is generated, the
    bare name with the hidden flag false, whatever the group. *)
Theorem other_card_one_row `{U : StrUpper} (c : card) (unique setunique : bool) :
  is_pokemon c = false ->
  gen_cardnames c unique setunique = [(name c, false)].
Proof. intros Hp. unfold gen_cardnames. now rewrite Hp. Qed.

Lemma other_card_one_row_witness :
  gen_cardnames (potion "base1" "1999/01/09") true true = [("Potion", false)].
Proof. apply (other_card_one_row (potion "base1" "1999/01/09") true true). reflexivity. Defined.

(** ** The hard-coded overrides *)

Lemma insert_rows_app (game : Z) (a b : list row) :
  insert_rows game (a ++ b) = (insert_rows game a ++ insert_rows game b)%list.
Proof. unfold insert_rows. apply flat_map_app. Qed.

Lemma in_ex_names (s : string) :
  existsb (String.eqb s) ex_names = true
  <-> s = "Chansey ex" \/ s = "Electabuzz ex" \/ s = "Magmar ex".
Proof.
  unfold ex_names. simpl.
  rewrite !orb_true_iff, !String.eqb_eq. intuition discriminate.
Qed.

(** C9: [get_hacks] never changes the display name; it appends "exclamation"
    (resp. "question") to the filtered name of a card named "Unown" with
    number "!" (resp. "?"), so that two such rows with one filtered name get
    different ones; it leaves every other filtered name unchanged; and it
    skips a row exactly when the card is named "Chansey ex", "Electabuzz ex"
    or "Magmar ex" and the display name is the bare card name; [main] inserts
    nothing for a skipped row and the returned names for any other, wherever
    the row stands among the rows: the rows before it and after it are
    inserted as they are without it. *)
Theorem get_hacks_overrides (cardname filteredname : string) (c : card) :
  let '(cardname', filteredname', skip) := get_hacks cardname filteredname c in
  cardname' = cardname
  /\ (name c = "Unown" -> number c = "!" ->
      filteredname' = filteredname ++ "exclamation")
  /\ (name c = "Unown" -> number c = "?" ->
      filteredname' = filteredname ++ "question")
  /\ (forall cardname2 c2,
        name c = "Unown" -> number c = "!" ->
        name c2 = "Unown" -> number c2 = "?" ->
        filteredname' <> snd (fst (get_hacks cardname2 filteredname c2)))
  /\ (~ (name c = "Unown" /\ (number c = "!" \/ number c = "?")) ->
      filteredname' = filteredname)
  /\ (skip = true <->
      (name c = "Chansey ex" \/ name c = "Electabuzz ex" \/ name c = "Magmar ex")
      /\ cardname = name c)
  /\ (forall game description hidden,
        insert_rows game [mk_row cardname filteredname description hidden c]
        = if skip then []
          else [mk_db_row game filteredname' cardname' description hidden])
  /\ (forall game description hidden before after,
        insert_rows game
          (before ++ mk_row cardname filteredname description hidden c :: after)
        = (insert_rows game before
           ++ (if skip then []
               else [mk_db_row game filteredname' cardname' description hidden])
           ++ insert_rows game after)%list).
Proof.
  assert (Hall : forall game description hidden before after,
             insert_rows game
               (before ++ mk_row cardname filteredname description hidden c :: after)
             = (insert_rows game before
                ++ insert_rows game [mk_row cardname filteredname description hidden c]
                ++ insert_rows game after)%list).
  { intros. rewrite insert_rows_app.
    change (?r :: after) with ([r] ++ after)%list.
    now rewrite insert_rows_app. }
  assert (Hins : forall game description hidden,
             insert_rows game [mk_row cardname filteredname description hidden c]
             = let '(cardname', filteredname', skip) :=
                 get_hacks cardname filteredname c in
               if skip then []
               else [mk_db_row game filteredname' cardname' description hidden]).
  { intros. unfold insert_rows.
    cbn [flat_map row_cardname row_filteredname row_description row_hidden row_card].
    destruct (get_hacks cardname filteredname c) as [[cn fn] []]; reflexivity. }
  revert Hins. unfold get_hacks. fold ex_names. intros Hins.
  split; [reflexivity|].
  split; [intros -> ->; reflexivity|].
  split; [intros -> ->; reflexivity|].
  split.
  { intros cardname2 c2 -> -> -> ->. simpl.
    intros H. apply append_inj_l in H. discriminate. }
  split.
  { intros Hn.
    destruct (String.eqb_spec (name c) "Unown") as [Hu|Hu]; simpl; [|reflexivity].
    destruct (String.eqb_spec (number c) "!") as [He|He]; [tauto|].
    destruct (String.eqb_spec (number c) "?") as [Hq|Hq]; [tauto|reflexivity]. }
  split; [|split; [exact Hins|]].
  - rewrite <- in_ex_names, <- (String.eqb_eq cardname (name c)), <- andb_true_iff.
    destruct (existsb (String.eqb (name c)) ex_names && (cardname =? name c));
      intuition congruence.
  - intros. now rewrite Hall, Hins.
Qed.

Lemma get_hacks_overrides_witness :
  get_hacks "Unown (N2 !)" "unownn2" unown_exclamation
  = ("Unown (N2 !)", "unownn2exclamation", false)
  /\ "unownn2exclamation" <> snd (fst (get_hacks "Unown (N2 ?)" "unownn2" unown_question))
  /\ snd (get_hacks "Chansey ex" "chanseyex" chansey_ex) = true
  /\ insert_rows 3
       [mk_row "Chansey ex" "chanseyex" "Chansey ex (EX5 96) | Pokémon" false chansey_ex;
        mk_row "Potion" "potion" "Potion | Trainer" false (potion "base1" "1999/01/09")]
     = [mk_db_row 3 "potion" "Potion" "Potion | Trainer" false].
Proof.
  pose proof (get_hacks_overrides "Unown (N2 !)" "unownn2" unown_exclamation) as H.
  pose proof (get_hacks_overrides "Chansey ex" "chanseyex" chansey_ex) as H'.
  destruct (get_hacks "Unown (N2 !)" "unownn2" unown_exclamation) as [[cn fn] skip] eqn:E.
  destruct (get_hacks "Chansey ex" "chanseyex" chansey_ex) as [[cn' fn'] skip'] eqn:E'.
  destruct H as (H1 & H2 & _ & H4 & _ & H6 & _).
  destruct H' as (_ & _ & _ & _ & _ & H6' & _ & H8').
  specialize (H2 eq_refl eq_refl).
  specialize (H4 "Unown (N2 ?)" unown_question eq_refl eq_refl eq_refl eq_refl).
  split; [|split; [|split]].
  - subst cn fn. f_equal. destruct skip; [|reflexivity].
    destruct H6 as [H6 _]. destruct (H6 eq_refl) as [[?|[?|?]] _]; discriminate.
  - subst fn. exact H4.
  - simpl. apply H6'. split; [left|]; reflexivity.
  - assert (Hskip : skip' = true) by (apply H6'; split; [left|]; reflexivity).
    specialize (H8' 3%Z "Chansey ex (EX5 96) | Pokémon" false []
                  [mk_row "Potion" "potion" "Potion | Trainer" false
                          (potion "base1" "1999/01/09")]).
    rewrite Hskip in H8'. exact H8'.
Defined.

(** ** The message length check *)

Lemma encode_utf_16_le_find (message : list Z) :
  match find is_surrogate message with
  | Some cp => encode_utf_16_le message = inl (UnicodeEncodeError cp)
  | None => exists encoded, encode_utf_16_le message = inr encoded
  end.
Proof.
  induction message as [|cp message IH]; simpl.
  - now exists [].
  - destruct (is_surrogate cp); [reflexivity|].
    destruct (find is_surrogate message) as [cp'|].
    + now rewrite IH.
    + destruct IH as [encoded ->]. simpl. destruct (cp <? 65536)%Z; eauto.
Qed.

(** C10, as amended: [check_message_length] returns no value on any message:
    it raises [TypeError] from the floor division whenever the message can be
    encoded, and [UnicodeEncodeError] from the encoding when the message
    holds a lone surrogate code point. *)
Theorem check_message_length_always_raises (message : list Z) (max_len : Z) :
  check_message_length message max_len =
  match find is_surrogate message with
  | Some cp => inl (UnicodeEncodeError cp)
  | None => inl TypeError
  end.
Proof.
  unfold check_message_length.
  pose proof (encode_utf_16_le_find message) as H.
  destruct (find is_surrogate message) as [cp|].
  - now rewrite H.
  - destruct H as [encoded ->]. reflexivity.
Qed.

(** C10, as stated, fails on the message made of the lone surrogate U+D800:
    the encoding raises before the division is reached. *)
Lemma always_TypeError_counterexample :
  check_message_length [55296%Z] 200 = inl (UnicodeEncodeError 55296)
  /\ ~ always_TypeError_claim.
Proof.
  split; [reflexivity|].
  intros H. specialize (H [55296%Z] 200%Z). discriminate.
Qed.

(** ** The rows of a creature group *)

Lemma get_hacks_skip (cardname filteredname : string) (c : card) :
  snd (get_hacks cardname filteredname c)
  = existsb (String.eqb (name c)) ex_names && (cardname =? name c).
Proof.
  unfold get_hacks, ex_names. cbn [snd].
  destruct (existsb _ _ && _); reflexivity.
Qed.

Lemma insert_rows_single (game : Z) (r : row) :
  insert_rows game [r] =
  let hacked := get_hacks (row_cardname r) (row_filteredname r) (row_card r) in
  if snd hacked then []
  else [mk_db_row game (snd (fst hacked)) (fst (fst hacked))
                  (row_description r) (row_hidden r)].
Proof.
  unfold insert_rows, flat_map. rewrite app_nil_r.
  destruct (get_hacks (row_cardname r) (row_filteredname r) (row_card r))
    as [[cardname filteredname] skip].
  reflexivity.
Qed.

Section Rows.

Variable clean_text : string -> string.
Context `{U : StrUpper}.

Lemma process_card_bare (c : card) (group : list card) (pieces : list string) :
  is_pokemon c = true ->
  gen_text c = inr pieces ->
  exists rows,
    process_card clean_text c group = inr rows
    /\ bare_rows rows =
       if unique_in group
       then [mk_row (name c) (clean_text (name c)) (join pieces) false (after_gen_text c)]
       else [].
Proof.
  intros Hp Hg. unfold process_card. rewrite Hg. simpl.
  eexists. split; [reflexivity|].
  fold (cardnames_in c group). rewrite (cardnames_in_pokemon c group Hp).
  assert (H1 : (name_set_num c =? name c) = false)
    by (apply String.eqb_neq, name_set_num_neq_name).
  assert (H2 : (name_set c =? name c) = false)
    by (apply String.eqb_neq, name_set_neq_name).
  unfold bare_rows, is_bare.
  destruct (setunique_in c group), (unique_in group); simpl;
    rewrite ?H1, ?H2, ?String.eqb_refl; reflexivity.
Qed.

Lemma bare_rows_app (a b : list row) :
  bare_rows (a ++ b) = (bare_rows a ++ bare_rows b)%list.
Proof. apply filter_app. Qed.

Lemma group_rows_bare (group l : list card) :
  (forall c, In c l -> is_pokemon c = true) ->
  (forall c, In c l -> exists pieces, gen_text c = inr pieces) ->
  exists rowss,
    mapM (fun c => process_card clean_text c group) l = inr rowss
    /\ List.length (bare_rows (List.concat rowss))
       = (if unique_in group then List.length l else 0)
    /\ (forall r, In r (bare_rows (List.concat rowss)) ->
          row_hidden r = false /\ unique_in group = true).
Proof.
  induction l as [|c l IH]; intros Hp Hg.
  - exists []. simpl. destruct (unique_in group); repeat split; contradiction.
  - destruct IH as (rowss & Hm & Hlen & Hrows).
    { intros; apply Hp; now right. }
    { intros; apply Hg; now right. }
    destruct (Hg c (or_introl eq_refl)) as [pieces Hc].
    destruct (process_card_bare c group pieces (Hp c (or_introl eq_refl)) Hc)
      as (rows & Hr & Hb).
    exists (rows :: rowss). simpl. rewrite Hr, Hm. simpl.
    split; [reflexivity|]. rewrite bare_rows_app, Hb. split.
    + rewrite length_app, Hlen. destruct (unique_in group); reflexivity.
    + intros r Hin. apply in_app_or in Hin. destruct Hin as [Hin|Hin].
      * destruct (unique_in group); simpl in Hin; [|contradiction].
        destruct Hin as [<-|[]]. auto.
      * now apply Hrows.
Qed.

(** C8, as amended: when the descriptions of its cards can be rendered,
    the rows of a creature group hold one bare name if the group has one
    member and none otherwise; a bare row always has the hidden flag
    false; [main] then inserts it unless the card is named "Chansey ex",
    "Electabuzz ex" or "Magmar ex". *)
Theorem bare_rows_of_group (group : list card) :
  (forall c, In c group -> is_pokemon c = true) ->
  (forall c, In c group -> exists pieces, gen_text c = inr pieces) ->
  exists rows,
    iter_group clean_text group = inr rows
    /\ List.length (bare_rows rows) = (if Nat.eqb (group_size group) 1 then 1 else 0)
    /\ (forall r, In r (bare_rows rows) ->
          row_hidden r = false
          /\ group_size group = 1
          /\ forall game,
              insert_rows game [r] = []
              <-> existsb (String.eqb (name (row_card r))) ex_names = true).
Proof.
  intros Hp Hg.
  destruct (group_rows_bare group group Hp Hg) as (rowss & Hm & Hlen & Hrows).
  exists (List.concat rowss). unfold iter_group. rewrite Hm.
  split; [reflexivity|]. split.
  - rewrite Hlen. unfold unique_in, group_size.
    destruct (List.length group) as [|[|n]]; reflexivity.
  - intros r Hin. destruct (Hrows r Hin) as [Hh Hu].
    split; [exact Hh|]. split.
    + assert (Hpos : 0 < List.length (bare_rows (List.concat rowss)))
        by (destruct (bare_rows (List.concat rowss)); simpl; [contradiction | lia]).
      rewrite Hlen, Hu in Hpos. unfold unique_in in Hu. apply Nat.leb_le in Hu.
      unfold group_size in *. lia.
    + intros game. apply filter_In in Hin. destruct Hin as [_ Hbare].
      unfold is_bare in Hbare.
      rewrite insert_rows_single. cbv zeta.
      rewrite get_hacks_skip, Hbare, andb_true_r.
      destruct (existsb (String.eqb (name (row_card r))) ex_names);
        split; intros H; (reflexivity || discriminate H).
Qed.

End Rows.

Lemma bare_rows_of_group_witness :
  exists rows,
    iter_group clean_text_model [pikachu_base] = inr rows
    /\ List.length (bare_rows rows) = 1
    /\ (forall r, In r (bare_rows rows) ->
          row_hidden r = false
          /\ group_size [pikachu_base] = 1
          /\ forall game,
              insert_rows game [r] = []
              <-> existsb (String.eqb (name (row_card r))) ex_names = true).
Proof.
  apply (bare_rows_of_group clean_text_model [pikachu_base]).
  - intros c [<-|[]]. reflexivity.
  - intros c [<-|[]]. eexists. vm_compute. reflexivity.
Defined.

(** C8, as stated, fails on a group of two creature cards: none of its rows
    is a bare name. *)
Lemma one_bare_row_counterexample :
  (forall c, In c [pikachu_base; pikachu_jungle] -> is_pokemon c = true)
  /\ (exists rows,
        iter_group clean_text_model [pikachu_base; pikachu_jungle] = inr rows
        /\ map row_cardname rows
           = ["Pikachu (BS 58)"; "Pikachu (BS)"; "Pikachu (JU 60)"; "Pikachu (JU)"]
        /\ bare_rows rows = [])
  /\ ~ one_bare_row_claim clean_text_model [pikachu_base; pikachu_jungle].
Proof.
  split; [intros c [<-|[<-|[]]]; reflexivity|].
  split.
  - eexists. split; [vm_compute; reflexivity|]. split; reflexivity.
  - intros (rows & Hrows & Hlen & _).
    vm_compute in Hrows. injection Hrows as <-.
    vm_compute in Hlen. discriminate.
Qed.

(** ** The order of the release dates *)

Lemma compare_le_lt_trans (a b c : string) :
  String.compare a b <> Gt -> String.compare b c = Lt -> String.compare a c = Lt.
Proof.
  revert b c. induction a as [|x a IH]; intros [|y b] [|z c]; simpl;
    try congruence; try discriminate.
  unfold Ascii.compare.
  destruct (N.compare_spec (N_of_ascii x) (N_of_ascii y)) as [Hxy|Hxy|Hxy];
    [|  |congruence].
  - rewrite Hxy.
    destruct (N.compare (N_of_ascii y) (N_of_ascii z)); try congruence.
    apply IH.
  - intros _.
    destruct (N.compare_spec (N_of_ascii y) (N_of_ascii z)) as [Hyz|Hyz|Hyz];
      try discriminate; intros _.
    + rewrite <- Hyz. now apply N.compare_lt_iff in Hxy as ->.
    + assert (H : (N_of_ascii x < N_of_ascii z)%N) by lia.
      now apply N.compare_lt_iff in H as ->.
Qed.

Lemma ltb_trans (a b c : string) :
  String.ltb a b = true -> String.ltb b c = true -> String.ltb a c = true.
Proof.
  unfold String.ltb. intros Hab Hbc.
  rewrite (compare_le_lt_trans a b c); [reflexivity| |].
  - destruct (String.compare a b); congruence.
  - destruct (String.compare b c); congruence.
Qed.

Lemma leb_ltb_trans (a b c : string) :
  String.leb a b = true -> String.ltb b c = true -> String.ltb a c = true.
Proof.
  unfold String.leb, String.ltb. intros Hab Hbc.
  rewrite (compare_le_lt_trans a b c); [reflexivity| |].
  - destruct (String.compare a b); congruence.
  - destruct (String.compare b c); congruence.
Qed.

Lemma ltb_false_leb (a b : string) :
  String.ltb a b = false -> String.leb b a = true.
Proof.
  unfold String.ltb, String.leb. rewrite (String.compare_antisym b a).
  destruct (String.compare a b); simpl; congruence.
Qed.

Lemma ltb_leb (a b : string) : String.ltb a b = true -> String.leb a b = true.
Proof. unfold String.ltb, String.leb. destruct (String.compare a b); congruence. Qed.

(** ** The maximum of a group *)

Section Max.

Context {A : Type} (key : A -> string).

Lemma fold_max_split (others : list A) :
  forall (first : A) (before after : list A),
    (forall d, In d before -> String.ltb (key d) (key first) = true) ->
    (forall d, In d after -> String.leb (key d) (key first) = true) ->
    exists pre post,
      (before ++ first :: after ++ others
       = pre ++ fold_left (keep_greater key) others first :: post)%list
      /\ (forall d, In d pre ->
            String.ltb (key d) (key (fold_left (keep_greater key) others first)) = true)
      /\ (forall d, In d post ->
            String.leb (key d) (key (fold_left (keep_greater key) others first)) = true).
Proof.
  induction others as [|x others IH]; intros first before after Hb Ha.
  - exists before, after. rewrite app_nil_r. auto.
  - simpl. unfold keep_greater at 2 4 6.
    destruct (String.ltb (key first) (key x)) eqn:Hlt.
    + destruct (IH x (before ++ first :: after)%list []) as (pre & post & Heq & Hpre & Hpost).
      * intros d Hd. apply in_app_or in Hd. destruct Hd as [Hd|[<-|Hd]].
        -- apply ltb_trans with (key first); auto.
        -- exact Hlt.
        -- apply leb_ltb_trans with (key first); auto.
      * intros d [].
      * exists pre, post. split; [|auto].
        rewrite <- Heq. simpl. rewrite <- app_assoc. reflexivity.
    + destruct (IH first before (after ++ [x])%list) as (pre & post & Heq & Hpre & Hpost).
      * exact Hb.
      * intros d Hd. apply in_app_or in Hd. destruct Hd as [Hd|[<-|[]]]; auto.
        now apply ltb_false_leb.
      * exists pre, post. split; [|auto].
        rewrite <- Heq. rewrite <- app_assoc. reflexivity.
Qed.

(** [max] returns an item of a non-empty sequence: every earlier item has a
    strictly smaller key and no later item a greater one. *)
Lemma py_max_first_greatest (l : list A) :
  l <> [] ->
  exists pre m post,
    py_max key l = inr m
    /\ l = (pre ++ m :: post)%list
    /\ (forall d, In d pre -> String.ltb (key d) (key m) = true)
    /\ (forall d, In d post -> String.leb (key d) (key m) = true).
Proof.
  destruct l as [|first others]; [congruence|]. intros _.
  destruct (fold_max_split others first [] []) as (pre & post & Heq & Hpre & Hpost);
    [intros d []|intros d []|].
  exists pre, (fold_left (keep_greater key) others first), post. auto.
Qed.

End Max.

(** ** The dictionary of names *)

Lemma getitem_dict_append (key k : string) (c : card) (names : list (string * list card)) :
  getitem (dict_append key c names) k =
  if key =? k
  then inr ((match getitem names k with inr group => group | inl _ => [] end) ++ [c])%list
  else getitem names k.
Proof.
  induction names as [|[k' group] names IH]; simpl.
  - destruct (key =? k); reflexivity.
  - destruct (String.eqb_spec k' key) as [->|Hk']; simpl.
    + destruct (key =? k); reflexivity.
    + destruct (String.eqb_spec k' k) as [->|Hk].
      * apply String.eqb_neq in Hk'. rewrite String.eqb_sym in Hk'. now rewrite Hk'.
      * exact IH.
Qed.

Lemma keys_dict_append (key : string) (c : card) (names : list (string * list card)) :
  map fst (dict_append key c names) =
  if contains names key then map fst names else (map fst names ++ [key])%list.
Proof.
  unfold contains. induction names as [|[k' group] names IH]; simpl; [reflexivity|].
  destruct (k' =? key); simpl; [reflexivity|].
  rewrite IH. destruct (existsb _ names); reflexivity.
Qed.

Lemma contains_false_not_in {V : Type} (d : list (string * V)) (k : string) :
  contains d k = false -> ~ In k (map fst d).
Proof.
  unfold contains. induction d as [|[k' v] d IH]; simpl; [tauto|].
  intros H. apply orb_false_elim in H. destruct H as [Hk H].
  apply String.eqb_neq in Hk. intros [?|?]; [congruence | now apply IH].
Qed.

Lemma NoDup_dict_append (key : string) (c : card) (names : list (string * list card)) :
  NoDup (map fst names) -> NoDup (map fst (dict_append key c names)).
Proof.
  intros Hnd. rewrite keys_dict_append.
  destruct (contains names key) eqn:Hc; [exact Hnd|].
  apply NoDup_app; [exact Hnd | repeat constructor; intros [] |].
  intros k Hk [Heq|[]]. subst k. now apply (contains_false_not_in names key).
Qed.

Lemma NoDup_getitem {V : Type} (d : list (string * V)) (k : string) (v : V) :
  NoDup (map fst d) -> In (k, v) d -> getitem d k = inr v.
Proof.
  induction d as [|[k' v'] d IH]; simpl; [contradiction|].
  intros Hnd [[= -> ->]|Hin].
  - now rewrite String.eqb_refl.
  - inversion Hnd as [|? ? Hnotin Hnd']; subst.
    destruct (String.eqb_spec k' k) as [->|_]; [|now apply IH].
    exfalso. apply Hnotin. now apply (in_map fst d (k, v)).
Qed.

Lemma getitem_In {V : Type} (d : list (string * V)) (k : string) (v : V) :
  getitem d k = inr v -> In (k, v) d.
Proof.
  induction d as [|[k' v'] d IH]; simpl; [discriminate|].
  destruct (String.eqb_spec k' k) as [->|_].
  - intros [= ->]. now left.
  - intros H. right. now apply IH.
Qed.

Lemma NoDup_filter_key {V : Type} (d : list (string * V)) (k : string) (v : V) :
  NoDup (map fst d) -> In (k, v) d ->
  filter (fun kv => fst kv =? k) d = [(k, v)].
Proof.
  induction d as [|[k' v'] d IH]; simpl; [contradiction|].
  intros Hnd Hin. inversion Hnd as [|? ? Hnotin Hnd']; subst.
  destruct Hin as [[= -> ->]|Hin].
  - rewrite String.eqb_refl. f_equal.
    assert (H : forall kv, In kv d -> (fst kv =? k) = false).
    { intros kv Hkv. apply String.eqb_neq. intros <-.
      apply Hnotin. now apply in_map. }
    clear -H. induction d as [|kv d IH]; simpl; [reflexivity|].
    rewrite (H kv (or_introl eq_refl)). apply IH. intros; apply H; now right.
  - destruct (String.eqb_spec k' k) as [->|_]; [|now apply IH].
    exfalso. apply Hnotin. now apply (in_map fst d (k, v)).
Qed.

Lemma mapM_map {A B : Type} (f : A -> py B) (g : A -> B) (l : list A) :
  (forall x, In x l -> f x = inr (g x)) -> mapM f l = inr (map g l).
Proof.
  induction l as [|x l IH]; simpl; intros H; [reflexivity|].
  rewrite (H x (or_introl eq_refl)), IH; [reflexivity|].
  intros; apply H; now right.
Qed.

Section Grouping.

Variable clean_text : string -> string.

(** After the loop, the list under a key is the one it had before, followed
    by the cards of that key in the order of the loop. *)
Lemma getitem_fill (cards : list card) :
  forall (names : list (string * list card)) (k : string),
    getitem (fill_names clean_text cards names) k =
    match filter (fun c => clean_text (name c) =? k) cards with
    | [] => getitem names k
    | added =>
        inr ((match getitem names k with inr group => group | inl _ => [] end)
             ++ added)%list
    end.
Proof.
  induction cards as [|c cards IH]; intros names k; [reflexivity|].
  unfold fill_names in *. simpl. rewrite IH, getitem_dict_append.
  destruct (clean_text (name c) =? k).
  - destruct (filter (fun c => clean_text (name c) =? k) cards); [reflexivity|].
    now rewrite <- app_assoc.
  - reflexivity.
Qed.

Lemma NoDup_fill (cards : list card) :
  forall names, NoDup (map fst names) -> NoDup (map fst (fill_names clean_text cards names)).
Proof.
  induction cards as [|c cards IH]; intros names Hnd; [exact Hnd|].
  apply IH. now apply NoDup_dict_append.
Qed.

Lemma names_of_groups (cards : list card) (k : string) (group : list card) :
  In (k, group) (names_of clean_text cards) <->
  group = filter (fun c => clean_text (name c) =? k) cards /\ group <> [].
Proof.
  assert (Hnd : NoDup (map fst (names_of clean_text cards)))
    by (apply (NoDup_fill cards []); constructor).
  assert (Hget := getitem_fill cards [] k).
  fold (names_of clean_text cards) in Hget.
  split.
  - intros Hin. apply (NoDup_getitem _ _ _ Hnd) in Hin. rewrite Hin in Hget.
    destruct (filter (fun c => clean_text (name c) =? k) cards); [discriminate|].
    injection Hget as ->. split; [reflexivity | discriminate].
  - intros [-> Hne]. apply getitem_In. rewrite Hget.
    destruct (filter (fun c => clean_text (name c) =? k) cards); [congruence | reflexivity].
Qed.

(** C5: for the cards sharing the cleaned name of a card given to
    [group_other_cards], the grouping returns and holds exactly one group
    for that name, of a single card: one of maximal release date among them,
    and the first of these in fetch order (every earlier card of the name is
    strictly older, no later one is more recent). Every group has one card. *)
Theorem group_other_cards_most_recent (cards : list card) (c : card) :
  In c cards ->
  let date := fun d : card => releaseDate (cset d) in
  let same := filter (fun d => clean_text (name d) =? clean_text (name c)) cards in
  exists groups pre m post,
    group_other_cards clean_text cards = inr groups
    /\ same = (pre ++ m :: post)%list
    /\ (forall d, In d pre -> String.ltb (date d) (date m) = true)
    /\ (forall d, In d post -> String.leb (date d) (date m) = true)
    /\ filter (existsb (fun d => clean_text (name d) =? clean_text (name c))) groups = [[m]]
    /\ Forall (fun group => List.length group = 1) groups.
Proof.
  intros Hc date same.
  set (k := clean_text (name c)).
  set (names := names_of clean_text cards).
  set (pick := fun group : list card =>
                 [fold_left (keep_greater date) (tl group) (hd c group)]).
  assert (Hnd : NoDup (map fst names)) by (apply (NoDup_fill cards []); constructor).
  assert (Hgroups : group_other_cards clean_text cards = inr (map pick (map snd names))).
  { unfold group_other_cards. apply mapM_map. intros group Hin.
    apply in_map_iff in Hin. destruct Hin as ([k' group'] & <- & Hin).
    apply names_of_groups in Hin. destruct Hin as [_ Hne]. simpl.
    destruct group' as [|first others]; [congruence | reflexivity]. }
  assert (Hsame : In (k, same) names).
  { apply names_of_groups. split; [reflexivity|].
    intros Hnil. assert (Hin : In c same).
    { apply filter_In. split; [exact Hc | apply String.eqb_refl]. }
    rewrite Hnil in Hin. contradiction. }
  destruct (py_max_first_greatest date same) as (pre & m & post & Hmax & Heq & Hpre & Hpost).
  { apply names_of_groups in Hsame. tauto. }
  exists (map pick (map snd names)), pre, m, post.
  split; [exact Hgroups|]. split; [exact Heq|].
  split; [exact Hpre|]. split; [exact Hpost|]. split.
  - rewrite map_map.
    assert (Hfilter : forall d : list (string * list card),
               (forall kv, In kv d -> In kv names) ->
               filter (existsb (fun d => clean_text (name d) =? k))
                      (map (fun kv => pick (snd kv)) d)
               = map (fun kv => pick (snd kv)) (filter (fun kv => fst kv =? k) d)).
    { induction d as [|[k' group] d IH]; intros Hsub; [reflexivity|].
      cbn [map filter fst snd].
      rewrite IH by (intros; apply Hsub; now right).
      assert (Hin : In (k', group) names) by (apply Hsub; now left).
      apply names_of_groups in Hin. destruct Hin as [Hgroup Hne].
      destruct (py_max_first_greatest date group Hne) as (pre' & m' & post' & Hm' & Heq' & _).
      assert (Hpick : pick group = [m']).
      { destruct group as [|first others]; [congruence|].
        simpl in Hm'. injection Hm' as <-. reflexivity. }
      assert (Hkey : clean_text (name m') = k').
      { assert (Hin : In m' group) by (rewrite Heq'; apply in_elt).
        rewrite Hgroup in Hin. apply filter_In in Hin. destruct Hin as [_ Hin].
        now apply String.eqb_eq in Hin. }
      rewrite Hpick. cbn [existsb]. rewrite Hkey, orb_false_r.
      destruct (k' =? k); cbn [map snd]; now rewrite ?Hpick. }
    rewrite Hfilter by auto.
    rewrite (NoDup_filter_key names k same Hnd Hsame). cbn [map snd].
    f_equal. destruct same as [|first others]; [discriminate|].
    simpl in Hmax. injection Hmax as <-. reflexivity.
  - apply Forall_forall. intros group Hin.
    apply in_map_iff in Hin. destruct Hin as (g & <- & _). reflexivity.
Qed.

End Grouping.

Lemma group_other_cards_most_recent_witness :
  exists groups pre m post,
    group_other_cards clean_text_model
      [potion "base1" "1999/01/09"; potion "base4" "2000/02/24"; potion "base6" "2000/02/24"]
    = inr groups
    /\ filter (fun d => clean_text_model (name d)
                        =? clean_text_model (name (potion "base1" "1999/01/09")))
         [potion "base1" "1999/01/09"; potion "base4" "2000/02/24"; potion "base6" "2000/02/24"]
       = (pre ++ m :: post)%list
    /\ (forall d, In d pre ->
          String.ltb (releaseDate (cset d)) (releaseDate (cset m)) = true)
    /\ (forall d, In d post ->
          String.leb (releaseDate (cset d)) (releaseDate (cset m)) = true)
    /\ filter (existsb (fun d => clean_text_model (name d)
                                 =? clean_text_model (name (potion "base1" "1999/01/09"))))
         groups = [[m]]
    /\ Forall (fun group => List.length group = 1) groups.
Proof.
  apply (group_other_cards_most_recent clean_text_model
           [potion "base1" "1999/01/09"; potion "base4" "2000/02/24"; potion "base6" "2000/02/24"]
           (potion "base1" "1999/01/09")).
  simpl. auto.
Defined.

(** On an exact tie of the release dates the first fetched card is kept. *)
Example group_other_cards_tie :
  group_other_cards clean_text_model
    [potion "base1" "1999/01/09"; potion "base4" "2000/02/24"; potion "base6" "2000/02/24"]
  = inr [[potion "base4" "2000/02/24"]].
Proof. reflexivity. Qed.

(** * Further properties of the importer *)

(** ** The groups *)

Lemma existsb_keys {V : Type} (d : list (string * V)) (k : string) :
  existsb (fun s => s =? k) (map fst d) = contains d k.
Proof.
  unfold contains. induction d as [|kv d IH]; simpl; [reflexivity | now rewrite IH].
Qed.

Lemma pairs_of_keys {V : Type} (f : string -> V) (l : list (string * V)) :
  (forall kv, In kv l -> snd kv = f (fst kv)) ->
  l = map (fun k => (k, f k)) (map fst l).
Proof.
  induction l as [|[k v] l IH]; simpl; intros H; [reflexivity|].
  pose proof (H (k, v) (or_introl eq_refl)) as Hv. simpl in Hv. subst v.
  f_equal. apply IH. intros; apply H; now right.
Qed.

Lemma NoDup_map_snd {K V : Type} (l : list (K * V)) :
  NoDup (map fst l) ->
  (forall kv1 kv2, In kv1 l -> In kv2 l -> snd kv1 = snd kv2 -> fst kv1 = fst kv2) ->
  NoDup (map snd l).
Proof.
  induction l as [|[k v] l IH]; simpl; intros Hnd Hinj; [constructor|].
  inversion Hnd as [|? ? Hnotin Hnd']; subst. constructor.
  - intros Hin. apply in_map_iff in Hin. destruct Hin as ([k' v'] & Hv & Hin).
    simpl in Hv. subst v'. apply Hnotin.
    assert (Hk : k' = k) by (apply (Hinj (k', v) (k, v)); auto).
    subst k'. now apply (in_map fst l (k, v)).
  - apply IH; [assumption|]. intros kv1 kv2 H1 H2. apply Hinj; now right.
Qed.

Lemma concat_dict_append (key : string) (c : card) (names : list (string * list card)) :
  Permutation (List.concat (map snd (dict_append key c names)))
              (c :: List.concat (map snd names)).
Proof.
  induction names as [|[k group] names IH]; simpl; [reflexivity|].
  destruct (k =? key); simpl.
  - rewrite <- app_assoc. symmetry. apply Permutation_middle.
  - rewrite IH. symmetry.
    apply (Permutation_middle group (List.concat (map snd names)) c).
Qed.

Lemma latest_of_member (group : list card) :
  group <> [] -> exists m, latest_of group = [m] /\ In m group.
Proof.
  intros Hne.
  destruct (py_max_first_greatest (fun c => releaseDate (cset c)) group Hne)
    as (pre & m & post & Hm & Heq & _).
  exists m. split.
  - destruct group as [|first others]; [congruence|].
    simpl in Hm. injection Hm as <-. reflexivity.
  - rewrite Heq. apply in_elt.
Qed.

Section Groups.

Variable clean_text : string -> string.

Lemma keys_fill_names (cards : list card) :
  forall names,
    map fst (fill_names clean_text cards names)
    = (map fst names
       ++ first_seen (map fst names) (map (fun c => clean_text (name c)) cards))%list.
Proof.
  induction cards as [|c cards IH]; intros names; simpl.
  - now rewrite app_nil_r.
  - unfold fill_names in *. simpl. rewrite IH, keys_dict_append, existsb_keys.
    destruct (contains names (clean_text (name c))); [reflexivity|].
    now rewrite <- app_assoc.
Qed.

Lemma concat_fill_names (cards : list card) :
  forall names,
    Permutation (List.concat (map snd (fill_names clean_text cards names)))
                (List.concat (map snd names) ++ cards).
Proof.
  induction cards as [|c cards IH]; intros names; simpl.
  - now rewrite app_nil_r.
  - unfold fill_names in *. simpl. rewrite IH, concat_dict_append.
    simpl. apply Permutation_middle.
Qed.

Lemma group_other_cards_latest (cards : list card) :
  group_other_cards clean_text cards
  = inr (map latest_of (group_pkmn_cards clean_text cards)).
Proof.
  unfold group_other_cards, group_pkmn_cards. apply mapM_map.
  intros group Hin. apply in_map_iff in Hin. destruct Hin as ([k g] & <- & Hin).
  apply names_of_groups in Hin. destruct Hin as [_ Hne]. simpl.
  destruct g as [|first others]; [congruence | reflexivity].
Qed.

(** X1: the groups of [group_pkmn_cards] are the classes of the cleaned
    name: a list is a group exactly when it is the list of all the cards
    sharing the cleaned name of some card, in fetch order; the groups are
    pairwise distinct. *)
Theorem group_pkmn_cards_classes (cards : list card) :
  (forall group,
     In group (group_pkmn_cards clean_text cards) <->
     exists c, In c cards
               /\ group = filter (fun d => clean_text (name d) =? clean_text (name c)) cards)
  /\ NoDup (group_pkmn_cards clean_text cards).
Proof.
  split.
  - intros group. unfold group_pkmn_cards. rewrite in_map_iff. split.
    + intros ([k g] & <- & Hin). apply names_of_groups in Hin.
      destruct Hin as [Hg Hne]. simpl.
      destruct g as [|c g'] eqn:Eg; [congruence|].
      assert (Hc : In c (filter (fun d => clean_text (name d) =? k) cards))
        by (rewrite <- Hg; now left).
      apply filter_In in Hc. destruct Hc as [Hc Hk]. apply String.eqb_eq in Hk.
      exists c. split; [exact Hc|]. now rewrite Hk.
    + intros (c & Hc & ->).
      exists (clean_text (name c),
              filter (fun d => clean_text (name d) =? clean_text (name c)) cards).
      split; [reflexivity|]. apply names_of_groups. split; [reflexivity|].
      intros Hnil.
      assert (Hin : In c (filter (fun d => clean_text (name d) =? clean_text (name c)) cards))
        by (apply filter_In; split; [exact Hc | apply String.eqb_refl]).
      rewrite Hnil in Hin. contradiction.
  - unfold group_pkmn_cards. apply NoDup_map_snd.
    + apply (NoDup_fill clean_text cards []). constructor.
    + intros [k1 g1] [k2 g2] H1 H2 Heq. simpl in *. subst g2.
      apply names_of_groups in H1, H2.
      destruct H1 as [Hg1 Hne], H2 as [Hg2 _].
      destruct g1 as [|c g1']; [congruence|].
      assert (Hc1 : In c (filter (fun d => clean_text (name d) =? k1) cards))
        by (rewrite <- Hg1; now left).
      assert (Hc2 : In c (filter (fun d => clean_text (name d) =? k2) cards))
        by (rewrite <- Hg2; now left).
      apply filter_In in Hc1, Hc2.
      destruct Hc1 as [_ Hc1], Hc2 as [_ Hc2].
      apply String.eqb_eq in Hc1, Hc2. congruence.
Qed.

(** X2: [group_pkmn_cards] neither drops nor duplicates a card: the groups
    put end to end are a permutation of the cards given. *)
Theorem group_pkmn_cards_permutation (cards : list card) :
  Permutation (List.concat (group_pkmn_cards clean_text cards)) cards.
Proof.
  unfold group_pkmn_cards, names_of.
  apply (concat_fill_names cards []).
Qed.

(** X3: the groups come in the order in which their cleaned names first
    occur in the fetch: [group_pkmn_cards] returns, for each name in that
    order, the cards of that name in fetch order. *)
Theorem group_pkmn_cards_first_seen (cards : list card) :
  group_pkmn_cards clean_text cards
  = map (fun k => filter (fun d => clean_text (name d) =? k) cards)
        (first_seen [] (map (fun c => clean_text (name c)) cards)).
Proof.
  unfold group_pkmn_cards.
  rewrite (pairs_of_keys (fun k => filter (fun d => clean_text (name d) =? k) cards)
                         (names_of clean_text cards)).
  - rewrite map_map. simpl. unfold names_of.
    rewrite (keys_fill_names cards []). reflexivity.
  - intros [k g] Hin. apply names_of_groups in Hin. simpl. tauto.
Qed.

(** X4: [group_other_cards] never raises, on the empty list either: it
    returns one group for each group that [group_pkmn_cards] makes of the
    same cards, in the same order, holding a single card of that group. *)
Theorem group_other_cards_total (cards : list card) :
  exists groups,
    group_other_cards clean_text cards = inr groups
    /\ Forall2 (fun named group => exists m, group = [m] /\ In m named)
               (group_pkmn_cards clean_text cards) groups.
Proof.
  exists (map latest_of (group_pkmn_cards clean_text cards)).
  split; [apply group_other_cards_latest|].
  assert (Hne : forall g, In g (group_pkmn_cards clean_text cards) -> g <> []).
  { intros g Hin. unfold group_pkmn_cards in Hin. apply in_map_iff in Hin.
    destruct Hin as ([k g'] & <- & Hin). apply names_of_groups in Hin. simpl. tauto. }
  induction (group_pkmn_cards clean_text cards) as [|g gs IH]; simpl; constructor.
  - apply latest_of_member. apply Hne. now left.
  - apply IH. intros; apply Hne; now right.
Qed.

End Groups.

Lemma not_in_contains_false {V : Type} (d : list (string * V)) (k : string) :
  ~ In k (map fst d) -> contains d k = false.
Proof.
  unfold contains. induction d as [|[k' v] d IH]; simpl; intros H; [reflexivity|].
  rewrite IH by tauto. destruct (String.eqb_spec k' k); [tauto | reflexivity].
Qed.

Lemma dict_append_fresh (key : string) (c : card) (names : list (string * list card)) :
  contains names key = false ->
  dict_append key c names = (names ++ [(key, [c])])%list.
Proof.
  unfold contains. induction names as [|[k group] names IH]; simpl; [reflexivity|].
  intros H. apply orb_false_elim in H. destruct H as [-> H].
  now rewrite IH.
Qed.

Section Regrouping.

Variable clean_text : string -> string.

Lemma fill_names_fresh (cards : list card) :
  forall names,
    NoDup (map fst names ++ map (fun c => clean_text (name c)) cards) ->
    fill_names clean_text cards names
    = (names ++ map (fun c => (clean_text (name c), [c])) cards)%list.
Proof.
  induction cards as [|c cards IH]; intros names Hnd; simpl.
  - now rewrite app_nil_r.
  - unfold fill_names in *. simpl.
    rewrite dict_append_fresh.
    + rewrite IH; [now rewrite <- app_assoc|].
      rewrite map_app, <- app_assoc. exact Hnd.
    + apply not_in_contains_false. apply NoDup_remove_2 in Hnd.
      intros Hin. apply Hnd. apply in_or_app. now left.
Qed.

Lemma latest_of_names (l : list (string * list card)) :
  (forall k g, In (k, g) l -> g <> [] /\ forall c, In c g -> clean_text (name c) = k) ->
  map (fun c => clean_text (name c)) (List.concat (map latest_of (map snd l))) = map fst l
  /\ map (fun c => [c]) (List.concat (map latest_of (map snd l)))
     = map latest_of (map snd l).
Proof.
  induction l as [|[k g] l IH]; intros H; [split; reflexivity|].
  destruct IH as [IH1 IH2]; [intros; apply (H k0 g0); now right|].
  destruct (H k g (or_introl eq_refl)) as [Hne Hkey].
  destruct (latest_of_member g Hne) as (m & Hm & Hin).
  simpl. rewrite Hm. simpl. rewrite IH1, IH2, (Hkey m Hin). split; reflexivity.
Qed.

Lemma names_of_members (cards : list card) (k : string) (g : list card) :
  In (k, g) (names_of clean_text cards) ->
  g <> [] /\ forall c, In c g -> clean_text (name c) = k /\ In c cards.
Proof.
  intros Hin. apply names_of_groups in Hin. destruct Hin as [-> Hne].
  split; [exact Hne|]. intros c Hc. apply filter_In in Hc.
  destruct Hc as [Hc Hk]. apply String.eqb_eq in Hk. auto.
Qed.

(** X5: grouping the survivors of [group_other_cards] again changes
    nothing: the cards it keeps have pairwise different cleaned names, so
    each is alone in its group and is kept. *)
Theorem group_other_cards_idempotent (cards : list card) (groups : list (list card)) :
  group_other_cards clean_text cards = inr groups ->
  group_other_cards clean_text (List.concat groups) = inr groups.
Proof.
  rewrite group_other_cards_latest. intros [= <-].
  rewrite group_other_cards_latest. f_equal.
  unfold group_pkmn_cards.
  set (names := names_of clean_text cards).
  destruct (latest_of_names names) as [Hkeys Hsingle].
  { intros k g Hin. destruct (names_of_members cards k g Hin) as [Hne Hall].
    split; [exact Hne|]. intros c Hc. now apply Hall. }
  set (kept := List.concat (map latest_of (map snd names))) in *.
  unfold names_of at 1. rewrite (fill_names_fresh kept []).
  - rewrite <- Hsingle. simpl. rewrite !map_map. apply map_ext. reflexivity.
  - simpl. rewrite Hkeys. apply (NoDup_fill clean_text cards []). constructor.
Qed.

(** X6: [group_cards] never raises. The creature groups come first and hold
    every creature card of the fetch exactly once; they are followed by
    groups of a single card each, a card of the fetch that is no creature. *)
Theorem group_cards_total (fetched : list card) :
  exists pkmn others,
    group_cards clean_text fetched = inr (pkmn ++ others)%list
    /\ Permutation (List.concat pkmn) (filter is_pokemon fetched)
    /\ Forall (fun group => group <> []) pkmn
    /\ Forall (fun group => exists m, group = [m] /\ In m fetched /\ is_pokemon m = false)
              others.
Proof.
  exists (group_pkmn_cards clean_text (filter is_pokemon fetched)),
         (map latest_of
              (group_pkmn_cards clean_text (filter (fun c => negb (is_pokemon c)) fetched))).
  split; [|split; [|split]].
  - unfold group_cards. now rewrite group_other_cards_latest.
  - unfold group_pkmn_cards, names_of. apply (concat_fill_names clean_text _ []).
  - apply Forall_forall. intros g Hin. unfold group_pkmn_cards in Hin.
    apply in_map_iff in Hin. destruct Hin as ([k g'] & <- & Hin).
    now apply names_of_members in Hin.
  - apply Forall_forall. intros g Hin. apply in_map_iff in Hin.
    destruct Hin as (named & <- & Hin). unfold group_pkmn_cards in Hin.
    apply in_map_iff in Hin. destruct Hin as ([k g'] & <- & Hin).
    apply names_of_members in Hin. destruct Hin as [Hne Hall]. simpl.
    destruct (latest_of_member g' Hne) as (m & Hm & Hmin).
    exists m. split; [exact Hm|].
    destruct (Hall m Hmin) as [_ Hf]. apply filter_In in Hf.
    destruct Hf as [Hf Hp]. apply negb_true_iff in Hp. auto.
Qed.

End Regrouping.

Lemma group_other_cards_idempotent_witness :
  group_other_cards clean_text_model
    (List.concat [[potion "base4" "2000/02/24"]])
  = inr [[potion "base4" "2000/02/24"]].
Proof.
  apply (group_other_cards_idempotent clean_text_model
           [potion "base1" "1999/01/09"; potion "base4" "2000/02/24";
            potion "base6" "2000/02/24"]).
  reflexivity.
Defined.

(** ** The cost notation, continued *)


Lemma join_app (a b : list string) : join (a ++ b) = join a ++ join b.
Proof.
  induction a as [|x a IH]; [reflexivity|].
  change ((x :: a) ++ b)%list with (x :: (a ++ b)%list).
  rewrite !join_cons, IH. clear IH.
  induction x as [|ch x IHx]; simpl; [reflexivity | now rewrite IHx].
Qed.

Lemma TYPEABBR_letter (tok letter : string) :
  getitem TYPEABBR tok = inr letter -> String.length letter = 1.
Proof.
  unfold TYPEABBR. cbn [getitem].
  repeat (destruct (_ =? tok); [intros H; cbv in H; injection H as <-; reflexivity|]).
  intros H. cbv in H. discriminate.
Qed.

Lemma mapM_cons_inr {A B : Type} (f : A -> py B) (x : A) (xs : list A) (ys : list B) :
  mapM f (x :: xs) = inr ys ->
  exists y ys', f x = inr y /\ mapM f xs = inr ys' /\ ys = y :: ys'.
Proof.
  simpl. destruct (f x) as [e|y]; [discriminate|].
  destruct (mapM f xs) as [e|ys']; [discriminate|].
  intros [= <-]. eauto.
Qed.

Lemma mapM_letters (tokens letters : list string) :
  mapM (getitem TYPEABBR) tokens = inr letters ->
  String.length (join letters) = List.length tokens.
Proof.
  revert letters. induction tokens as [|tok tokens IH]; intros letters H.
  - injection H as <-. reflexivity.
  - apply mapM_cons_inr in H. destruct H as (letter & rest & Hl & Hrest & ->).
    rewrite join_cons, length_append, (IH rest Hrest).
    now rewrite (TYPEABBR_letter tok letter Hl).
Qed.

Lemma all_free_iff (costs : list string) :
  forallb (fun i => i =? "Free") costs
  = Nat.eqb (List.length (filter (fun i => i =? "Colorless") costs)) 0
    && Nat.eqb (List.length (typed_tokens costs)) 0.
Proof.
  unfold typed_tokens. induction costs as [|i costs IH]; simpl; [reflexivity|].
  destruct (String.eqb_spec i "Free") as [->|Hf]; simpl; [exact IH|].
  destruct (String.eqb_spec i "Colorless") as [->|Hc]; simpl; [reflexivity|].
  now rewrite andb_false_r.
Qed.

Lemma typed_tokens_canonical (n : nat) (typed : list string) :
  typed_tokens (repeat "Colorless" n ++ typed) = typed_tokens typed
  /\ List.length (filter (fun i => i =? "Colorless") (repeat "Colorless" n ++ typed))
     = n + List.length (filter (fun i => i =? "Colorless") typed).
Proof.
  induction n as [|n [IH1 IH2]]; simpl; [split; reflexivity|].
  unfold typed_tokens in *. simpl. rewrite IH1, IH2. split; reflexivity.
Qed.

Lemma typed_tokens_idempotent (costs : list string) :
  typed_tokens (typed_tokens costs) = typed_tokens costs
  /\ filter (fun i => i =? "Colorless") (typed_tokens costs) = [].
Proof.
  unfold typed_tokens. induction costs as [|i costs [IH1 IH2]]; simpl; [split; reflexivity|].
  destruct (String.eqb_spec i "Free") as [->|Hf]; simpl; [split; assumption|].
  destruct (String.eqb_spec i "Colorless") as [->|Hc]; simpl; [split; assumption|].
  apply String.eqb_neq in Hf, Hc. rewrite Hf, Hc. simpl. rewrite IH1, IH2.
  split; reflexivity.
Qed.

(** X7: the cost notation depends only on the number of "Colorless" tokens
    and on the other typed tokens in their order: "Free" tokens and the
    places of the "Colorless" tokens make no difference, to the string
    returned or to the exception raised. *)
Theorem cost_default_canonical (costs : list string) :
  cost_default costs =
  cost_default (repeat "Colorless" (List.length (filter (fun i => i =? "Colorless") costs))
                ++ typed_tokens costs).
Proof.
  set (n := List.length (filter (fun i => i =? "Colorless") costs)).
  destruct (typed_tokens_canonical n (typed_tokens costs)) as [Ht Hn].
  destruct (typed_tokens_idempotent costs) as [Hi Hc].
  rewrite Hi in Ht. rewrite Hc, Nat.add_0_r in Hn.
  rewrite !cost_default_unfold, Ht. unfold count_prefix.
  rewrite !all_free_iff, Ht, Hn. reflexivity.
Qed.



(** X9: with [colorlesscount=False] nothing is counted or removed: a
    "Free" token then raises its [KeyError], and a string that is returned
    has one character for each token, "Colorless" included. *)
Theorem cost_without_count (costs : list string) :
  (In "Free" costs -> exists tok, cost costs false = inl (KeyError tok))
  /\ (forall s, cost costs false = inr s -> String.length s = List.length costs).
Proof.
  unfold cost. split.
  - intros Hin.
    destruct (mapM (getitem TYPEABBR) costs) as [e|letters] eqn:Hm.
    + apply mapM_inl in Hm. destruct Hm as (tok & _ & Hget).
      apply getitem_inl in Hget. destruct Hget as [-> _]. now exists tok.
    + destruct (mapM_inr_all _ _ _ Hm "Free" Hin) as [letter Hl]. discriminate.
  - intros s.
    destruct (mapM (getitem TYPEABBR) costs) as [e|letters] eqn:Hm; simpl;
      [discriminate|].
    intros [= <-]. now apply mapM_letters.
Qed.

Lemma cost_without_count_witness :
  (exists tok, cost ["Grass"; "Free"] false = inl (KeyError tok))
  /\ String.length "CG" = List.length ["Colorless"; "Grass"].
Proof.
  split.
  - apply (proj1 (cost_without_count ["Grass"; "Free"])). simpl. auto.
  - apply (proj2 (cost_without_count ["Colorless"; "Grass"]) "CG"). reflexivity.
Defined.

(** ** The description text *)





Lemma bind_inr {A B : Type} (m : py A) (k : A -> py B) (y : B) :
  (x <- m ;; k x) = inr y -> exists v, m = inr v /\ k v = inr y.
Proof. destruct m as [e|v]; simpl; [discriminate | eauto]. Qed.

Lemma string_app_assoc (a b c : string) : (a ++ b) ++ c = a ++ b ++ c.
Proof. induction a as [|ch a IH]; simpl; [reflexivity | now rewrite IH]. Qed.

Lemma gen_text_unfold `{U : StrUpper} (c : card) :
  gen_text c =
  (rulepieces <- mapM rule_text_pieces (rules_of c) ;;
   retreat <-
     match rules_of c, retreatCost c with
     | _ :: _, Some costs => r <- cost_default costs ;; ret [" | retreat: {"; r; "}"]
     | _, _ => ret []
     end ;;
   ret ([name c]
        ++ (if is_pokemon c then [" ("; setcode c; " "; number c; ")"] else [])
        ++ [" | "; supertype c]
        ++ (match types c with [] => [] | ts => [" {"; String.concat "/" ts; "}"] end)
        ++ if_get (hp c) (fun h => [" ["; h; "HP]"])
        ++ (match subtypes c with [] => [] | sts => [" — "; String.concat " " sts] end)
        ++ if_get (evolvesFrom c) (fun e => [" [evolves from: "; e; "]"])
        ++ (match rules c with
            | [] => []
            | rs => " | " :: separated " / " (map (fun r => [r]) rs)
            end)
        ++ (match rules_of c with
            | [] => []
            | _ :: _ =>
                " | " :: separated " / " rulepieces
                ++ (match weaknesses c with
                    | [] => []
                    | ws => " | weak: " :: separated ", " (map typeeff_pieces ws)
                    end)
                ++ (match resistances c with
                    | [] => []
                    | rs => " | resist: " :: separated ", " (map typeeff_pieces rs)
                    end)
                ++ retreat
            end))%list).
Proof. reflexivity. Qed.



(** X11: for a card with no ancient trait, ability or attack, [gen_text]
    never raises, and its text does not depend on the weaknesses, the
    resistances and the retreat cost of the card: they are rendered only
    under [if rules:]. *)
Theorem gen_text_without_rules `{U : StrUpper} (c : card) :
  rules_of c = [] ->
  (exists pieces, gen_text c = inr pieces)
  /\ (forall ws rs rc, gen_text (with_effects c ws rs rc) = gen_text c).
Proof.
  intros Hr. split.
  - rewrite gen_text_unfold, Hr. simpl. eauto.
  - intros ws rs rc. rewrite !gen_text_unfold.
    change (rules_of (with_effects c ws rs rc)) with (rules_of c).
    rewrite Hr. reflexivity.
Qed.

Lemma gen_text_without_rules_witness :
  (exists pieces, gen_text (potion "base1" "1999/01/09") = inr pieces)
  /\ (forall ws rs rc,
        gen_text (with_effects (potion "base1" "1999/01/09") ws rs rc)
        = gen_text (potion "base1" "1999/01/09")).
Proof. apply (gen_text_without_rules (potion "base1" "1999/01/09")). reflexivity. Defined.

(** X12: the description starts with the name of the card, for a creature
    card with its fully qualified display name "Name (SET NUM)", followed
    by " | " and the supertype. *)
Theorem gen_text_prefix `{U : StrUpper} (c : card) (pieces : list string) :
  gen_text c = inr pieces ->
  exists rest,
    join pieces
    = (if is_pokemon c then name_set_num c else name c) ++ " | " ++ supertype c ++ rest.
Proof.
  rewrite gen_text_unfold. intros H.
  apply bind_inr in H. destruct H as (rulepieces & _ & H).
  apply bind_inr in H. destruct H as (retreat & _ & H).
  cbn [ret Monad_either] in H. injection H as <-.
  match goal with
  | |- context [" | " :: supertype c :: ?t] => set (tail := t)
  end.
  exists (join tail).
  rewrite join_cons, join_app, !join_cons.
  destruct (is_pokemon c).
  - rewrite !join_cons. unfold name_set_num.
    change (join []) with "". rewrite append_empty_r.
    repeat rewrite <- string_app_assoc. reflexivity.
  - reflexivity.
Qed.

Lemma gen_text_prefix_witness :
  exists rest,
    join ["Potion"; " | "; "Trainer"]
    = (if is_pokemon (potion "base1" "1999/01/09")
       then name_set_num (potion "base1" "1999/01/09")
       else name (potion "base1" "1999/01/09"))
      ++ " | " ++ supertype (potion "base1" "1999/01/09") ++ rest.
Proof.
  apply (gen_text_prefix (potion "base1" "1999/01/09") ["Potion"; " | "; "Trainer"]).
  reflexivity.
Defined.

(** ** The names and rows of a card *)

(** X13: whatever the two flags, [gen_cardnames] yields exactly one name
    that is not hidden, and yields it last: the bare name for a card that is
    no creature or is alone in its group, else "Name (SET)" when no other
    card of the group is of its set, else "Name (SET NUM)"; every name
    before it is hidden. *)
Theorem one_visible_name `{U : StrUpper} (c : card) (unique setunique : bool) :
  exists hidden_names,
    gen_cardnames c unique setunique
    = (hidden_names
       ++ [(if negb (is_pokemon c) || unique then name c
            else if setunique then name_set c else name_set_num c, false)])%list
    /\ Forall (fun nh => snd nh = true) hidden_names.
Proof.
  unfold gen_cardnames, name_set, name_set_num.
  destruct (is_pokemon c), unique, setunique; simpl.
  - eexists [_; _]. split; [reflexivity | repeat constructor].
  - eexists [_]. split; [reflexivity | repeat constructor].
  - eexists [_]. split; [reflexivity | repeat constructor].
  - exists []. split; [reflexivity | constructor].
  - exists []. split; [reflexivity | constructor].
  - exists []. split; [reflexivity | constructor].
  - exists []. split; [reflexivity | constructor].
  - exists []. split; [reflexivity | constructor].
Qed.

(** X14: the display names generated for one card are pairwise different. *)
Theorem cardnames_distinct `{U : StrUpper} (c : card) (unique setunique : bool) :
  NoDup (map fst (gen_cardnames c unique setunique)).
Proof.
  pose proof (name_set_num_neq_name_set c) as H1.
  pose proof (name_set_num_neq_name c) as H2.
  pose proof (name_set_neq_name c) as H3.
  unfold gen_cardnames. fold (name_set_num c) (name_set c).
  destruct (is_pokemon c), unique, setunique; simpl;
    repeat constructor; simpl; intuition congruence.
Qed.

Lemma mapM_Forall2 {A B : Type} (f : A -> py B) (l : list A) (ys : list B) :
  mapM f l = inr ys -> Forall2 (fun x y => f x = inr y) l ys.
Proof.
  revert ys. induction l as [|x l IH]; intros ys H.
  - injection H as <-. constructor.
  - simpl in H. destruct (f x) as [e|y] eqn:Hx; [discriminate|].
    destruct (mapM f l) as [e|ys']; [discriminate|].
    injection H as <-. constructor; auto.
Qed.

Lemma Forall2_in_l {A B : Type} (R : A -> B -> Prop) (l : list A) (l' : list B) (x : A) :
  Forall2 R l l' -> In x l -> exists y, In y l' /\ R x y.
Proof.
  induction 1 as [|a b l l' Hab _ IH]; simpl; [contradiction|].
  intros [<-|Hin]; [eauto|]. destruct (IH Hin) as (y & Hy & HR). eauto.
Qed.

Lemma Forall2_in_r {A B : Type} (R : A -> B -> Prop) (l : list A) (l' : list B) (y : B) :
  Forall2 R l l' -> In y l' -> exists x, In x l /\ R x y.
Proof.
  induction 1 as [|a b l l' Hab _ IH]; simpl; [contradiction|].
  intros [<-|Hin]; [eauto|]. destruct (IH Hin) as (x & Hx & HR). eauto.
Qed.

Section Pipeline.

Variable clean_text : string -> string.
Context `{U : StrUpper}.

Lemma process_card_rows (c : card) (group : list card) (pieces : list string) :
  gen_text c = inr pieces ->
  process_card clean_text c group
  = inr (map (fun nh => mk_row (fst nh) (clean_text (fst nh)) (join pieces) (snd nh)
                                (after_gen_text c))
             (cardnames_in c group)).
Proof.
  intros Hg. unfold process_card. rewrite Hg. simpl. f_equal.
  apply map_ext. intros [cardname hidden]. reflexivity.
Qed.

Lemma process_card_inr (c : card) (group : list card) (rows : list row) :
  process_card clean_text c group = inr rows ->
  exists pieces,
    gen_text c = inr pieces
    /\ rows = map (fun nh => mk_row (fst nh) (clean_text (fst nh)) (join pieces) (snd nh)
                                   (after_gen_text c))
                  (cardnames_in c group).
Proof.
  destruct (gen_text c) as [e|pieces] eqn:Hg.
  - unfold process_card. rewrite Hg. discriminate.
  - rewrite (process_card_rows c group pieces Hg). intros [= <-]. eauto.
Qed.

Lemma group_cards_groups (fetched : list card) :
  group_cards clean_text fetched
  = inr (group_pkmn_cards clean_text (filter is_pokemon fetched)
         ++ map latest_of
              (group_pkmn_cards clean_text
                 (filter (fun c => negb (is_pokemon c)) fetched)))%list.
Proof. unfold group_cards. now rewrite group_other_cards_latest. Qed.

Lemma group_pkmn_cards_members (cards group : list card) :
  In group (group_pkmn_cards clean_text cards) ->
  group <> [] /\ forall c, In c group -> In c cards.
Proof.
  intros Hin. unfold group_pkmn_cards in Hin. apply in_map_iff in Hin.
  destruct Hin as ([k g] & <- & Hin). apply names_of_members in Hin.
  destruct Hin as [Hne Hall]. split; [exact Hne|]. intros c Hc. now apply Hall.
Qed.

Lemma group_cards_members (fetched : list card) (groups : list (list card)) :
  group_cards clean_text fetched = inr groups ->
  forall group c, In group groups -> In c group -> In c fetched.
Proof.
  rewrite group_cards_groups. intros [= <-] group c Hg Hc.
  apply in_app_or in Hg. destruct Hg as [Hg|Hg].
  - apply group_pkmn_cards_members in Hg. destruct Hg as [_ Hall].
    apply Hall in Hc. apply filter_In in Hc. tauto.
  - apply in_map_iff in Hg. destruct Hg as (named & <- & Hg).
    apply group_pkmn_cards_members in Hg. destruct Hg as [Hne Hall].
    destruct (latest_of_member named Hne) as (m & Hm & Hin).
    rewrite Hm in Hc. destruct Hc as [<-|[]].
    apply Hall in Hin. apply filter_In in Hin. tauto.
Qed.

Lemma iter_group_inr (group : list card) (rows : list row) :
  iter_group clean_text group = inr rows ->
  exists rowss,
    Forall2 (fun c crows => process_card clean_text c group = inr crows) group rowss
    /\ rows = List.concat rowss.
Proof.
  unfold iter_group. intros H. apply bind_inr in H.
  destruct H as (rowss & Hm & H). injection H as <-.
  exists rowss. split; [now apply mapM_Forall2 | reflexivity].
Qed.

Lemma iter_cards_inr (fetched : list card) (rows : list row) :
  iter_cards clean_text fetched = inr rows ->
  exists groups rowss,
    group_cards clean_text fetched = inr groups
    /\ Forall2 (fun group grows => iter_group clean_text group = inr grows) groups rowss
    /\ rows = List.concat rowss.
Proof.
  unfold iter_cards. intros H. apply bind_inr in H.
  destruct H as (groups & Hg & H). apply bind_inr in H.
  destruct H as (rowss & Hm & H). injection H as <-.
  exists groups, rowss. split; [exact Hg|].
  split; [now apply mapM_Forall2 | reflexivity].
Qed.

(** X15: when [iter_cards] returns, every creature card of the fetch has a
    row under its fully qualified name "Name (SET NUM)", and every row comes
    from a fetched card, which it carries as [gen_text] has left it: its
    display name is one of the three names of that card, its filtered name
    is the cleaned display name and its description is the text of that
    card. *)
Theorem iter_cards_rows (fetched : list card) (rows : list row) :
  iter_cards clean_text fetched = inr rows ->
  (forall c, In c fetched -> is_pokemon c = true ->
     exists r, In r rows /\ row_card r = after_gen_text c
               /\ row_cardname r = name_set_num c)
  /\ (forall r, In r rows ->
        exists c,
          In c fetched
          /\ row_card r = after_gen_text c
          /\ In (row_cardname r) [name_set_num c; name_set c; name c]
          /\ row_filteredname r = clean_text (row_cardname r)
          /\ exists pieces,
               gen_text c = inr pieces /\ row_description r = join pieces).
Proof.
  intros H. destruct (iter_cards_inr fetched rows H) as (groups & rowss & Hg & Hf & ->).
  split.
  - intros c Hc Hp.
    set (group := filter (fun d => clean_text (name d) =? clean_text (name c))
                         (filter is_pokemon fetched)).
    assert (Hcg : In c group).
    { apply filter_In. split; [|apply String.eqb_refl]. apply filter_In. auto. }
    assert (Hgroup : In group groups).
    { rewrite group_cards_groups in Hg. injection Hg as <-.
      apply in_or_app. left. unfold group_pkmn_cards. apply in_map_iff.
      exists (clean_text (name c), group). split; [reflexivity|].
      apply names_of_groups. split; [reflexivity|].
      intros Hnil. rewrite Hnil in Hcg. contradiction. }
    destruct (Forall2_in_l _ _ _ group Hf Hgroup) as (grows & Hgrows & Hig).
    destruct (iter_group_inr group grows Hig) as (crowss & Hfc & ->).
    destruct (Forall2_in_l _ _ _ c Hfc Hcg) as (crows & Hcrows & Hpc).
    destruct (process_card_inr c group crows Hpc) as (pieces & _ & ->).
    rewrite (cardnames_in_pokemon c group Hp) in Hcrows.
    exists (mk_row (name_set_num c) (clean_text (name_set_num c)) (join pieces)
                   (unique_in group || setunique_in c group) (after_gen_text c)).
    split; [|split; reflexivity].
    apply in_concat. eexists. split; [exact Hgrows|].
    apply in_concat. eexists. split; [exact Hcrows|]. now left.
  - intros r Hr. apply in_concat in Hr. destruct Hr as (grows & Hgrows & Hr).
    destruct (Forall2_in_r _ _ _ grows Hf Hgrows) as (group & Hgroup & Hig).
    destruct (iter_group_inr group grows Hig) as (crowss & Hfc & ->).
    apply in_concat in Hr. destruct Hr as (crows & Hcrows & Hr).
    destruct (Forall2_in_r _ _ _ crows Hfc Hcrows) as (c & Hc & Hpc).
    destruct (process_card_inr c group crows Hpc) as (pieces & Hpieces & ->).
    apply in_map_iff in Hr. destruct Hr as ([cardname hidden] & <- & Hn).
    exists c. cbn [row_card row_cardname row_filteredname row_description fst snd].
    split; [exact (group_cards_members fetched groups Hg group c Hgroup Hc)|].
    split; [reflexivity|].
    split; [|split; [reflexivity | eauto]].
    unfold cardnames_in, gen_cardnames in Hn.
    fold (name_set_num c) (name_set c) in Hn.
    destruct (is_pokemon c), (unique_in group), (setunique_in c group);
      simpl in Hn |- *; intuition congruence.
Qed.

(** X16: [iter_cards] returns exactly when the text of every card kept by
    [group_cards] can be rendered; a cost that cannot be rendered on a card
    dropped by the grouping does not matter. *)
Theorem iter_cards_returns_iff (fetched : list card) (groups : list (list card)) :
  group_cards clean_text fetched = inr groups ->
  ((exists rows, iter_cards clean_text fetched = inr rows) <->
   (forall group c, In group groups -> In c group -> exists pieces, gen_text c = inr pieces)).
Proof.
  intros Hg. split.
  - intros [rows H] group c Hgroup Hc.
    destruct (iter_cards_inr fetched rows H) as (groups' & rowss & Hg' & Hf & _).
    assert (groups' = groups) by congruence. subst groups'.
    destruct (Forall2_in_l _ _ _ group Hf Hgroup) as (grows & _ & Hig).
    destruct (iter_group_inr group grows Hig) as (crowss & Hfc & _).
    destruct (Forall2_in_l _ _ _ c Hfc Hc) as (crows & _ & Hpc).
    destruct (process_card_inr c group crows Hpc) as (pieces & Hpieces & _). eauto.
  - intros Hall. unfold iter_cards. rewrite Hg. simpl.
    destruct (mapM_total (iter_group clean_text) groups) as [rowss ->]; [|simpl; eauto].
    intros group Hgroup. unfold iter_group.
    destruct (mapM_total (fun c => process_card clean_text c group) group) as [crowss ->];
      [|simpl; eauto].
    intros c Hc. destruct (Hall group c Hgroup Hc) as [pieces Hp].
    rewrite (process_card_rows c group pieces Hp). eauto.
Qed.

End Pipeline.

Lemma iter_cards_rows_witness :
  exists r,
    In r [mk_row "Unown (NEO2 !)" "unownneo2" "Unown (NEO2 !) | Pokémon" true unown_exclamation;
          mk_row "Unown (NEO2)" "unownneo2" "Unown (NEO2 !) | Pokémon" true unown_exclamation;
          mk_row "Unown" "unown" "Unown (NEO2 !) | Pokémon" false unown_exclamation]
    /\ row_card r = after_gen_text unown_exclamation
    /\ row_cardname r = name_set_num unown_exclamation.
Proof.
  refine (proj1 (iter_cards_rows clean_text_model [unown_exclamation] _ _)
            unown_exclamation _ _).
  - reflexivity.
  - simpl. auto.
  - reflexivity.
Defined.

Lemma iter_cards_returns_iff_witness :
  exists rows,
    iter_cards clean_text_model
      [potion "base1" "1999/01/09"; pikachu_base; potion "base4" "2000/02/24"]
    = inr rows.
Proof.
  apply (proj2 (iter_cards_returns_iff clean_text_model
                  [potion "base1" "1999/01/09"; pikachu_base; potion "base4" "2000/02/24"]
                  [[pikachu_base]; [potion "base4" "2000/02/24"]] eq_refl)).
  intros group c [<-|[<-|[]]] [<-|[]]; eexists; vm_compute; reflexivity.
Defined.

(** ** The loader *)

Lemma insert_rows_game (game : Z) (rows : list row) :
  Forall (fun r => db_game r = game) (insert_rows game rows).
Proof.
  apply Forall_forall. intros r Hin. unfold insert_rows in Hin.
  apply in_flat_map in Hin. destruct Hin as (x & _ & Hin).
  destruct (get_hacks (row_cardname x) (row_filteredname x) (row_card x))
    as [[cardname filteredname] skip].
  destruct skip; [contradiction|]. destruct Hin as [<-|[]]. reflexivity.
Qed.

Lemma filter_all {A : Type} (p : A -> bool) (l : list A) :
  Forall (fun x => p x = true) l -> filter p l = l.
Proof.
  induction 1 as [|x l Hx _ IH]; simpl; [reflexivity|]. now rewrite Hx, IH.
Qed.

Lemma filter_nothing {A : Type} (p : A -> bool) (l : list A) :
  Forall (fun x => p x = false) l -> filter p l = [].
Proof.
  induction 1 as [|x l Hx _ IH]; simpl; [reflexivity|]. now rewrite Hx.
Qed.

Lemma filter_idem {A : Type} (p : A -> bool) (l : list A) :
  filter p (filter p l) = filter p l.
Proof.
  apply filter_all. apply Forall_forall. intros x Hin.
  apply filter_In in Hin. tauto.
Qed.

Section Loader.

Variable clean_text : string -> string.
Variable CARD_GAME_PTCG : Z.
Context `{U : StrUpper}.

Lemma main_inr (fetched : list card) (table table' : list db_row) :
  main clean_text CARD_GAME_PTCG fetched table = inr table' ->
  exists rows,
    iter_cards clean_text fetched = inr rows
    /\ table' = (filter (other_game CARD_GAME_PTCG) table ++ insert_rows CARD_GAME_PTCG rows)%list.
Proof.
  unfold main. intros H. apply bind_inr in H. destruct H as (rows & Hr & H).
  injection H as <-. eauto.
Qed.

Lemma other_game_inserted (rows : list row) :
  filter (other_game CARD_GAME_PTCG) (insert_rows CARD_GAME_PTCG rows) = [].
Proof.
  apply filter_nothing. eapply Forall_impl; [|apply insert_rows_game].
  intros r Hr. unfold other_game. rewrite Hr, Z.eqb_refl. reflexivity.
Qed.

(** X17: [main] replaces the rows of the game and nothing else: the rows
    of the other games are kept as they were, in their order; the rows of
    the game are then exactly the rows inserted for the fetch, and so do
    not depend on the rows that were in the table before. *)
Theorem main_replaces_game_rows (fetched : list card) (table table' : list db_row) :
  main clean_text CARD_GAME_PTCG fetched table = inr table' ->
  filter (other_game CARD_GAME_PTCG) table' = filter (other_game CARD_GAME_PTCG) table
  /\ (exists rows,
        iter_cards clean_text fetched = inr rows
        /\ filter (of_game CARD_GAME_PTCG) table' = insert_rows CARD_GAME_PTCG rows)
  /\ (forall table2, exists table2',
        main clean_text CARD_GAME_PTCG fetched table2 = inr table2'
        /\ filter (of_game CARD_GAME_PTCG) table2'
           = filter (of_game CARD_GAME_PTCG) table').
Proof.
  intros H. destruct (main_inr fetched table table' H) as (rows & Hrows & ->).
  assert (Hkept : forall t,
             filter (of_game CARD_GAME_PTCG)
                    (filter (other_game CARD_GAME_PTCG) t ++ insert_rows CARD_GAME_PTCG rows)
             = insert_rows CARD_GAME_PTCG rows).
  { intros t. rewrite filter_app.
    rewrite (filter_nothing (of_game CARD_GAME_PTCG)
               (filter (other_game CARD_GAME_PTCG) t)).
    - simpl. apply filter_all. eapply Forall_impl; [|apply insert_rows_game].
      intros r Hr. unfold of_game. rewrite Hr. apply Z.eqb_refl.
    - apply Forall_forall. intros r Hin. apply filter_In in Hin.
      destruct Hin as [_ Hr]. unfold other_game in Hr. unfold of_game.
      now apply negb_true_iff in Hr. }
  split; [|split].
  - rewrite filter_app, filter_idem, other_game_inserted. apply app_nil_r.
  - exists rows. split; [exact Hrows | apply Hkept].
  - intros table2. eexists. split.
    + unfold main. rewrite Hrows. reflexivity.
    + fold (other_game CARD_GAME_PTCG). now rewrite !Hkept.
Qed.

(** X18: running [main] again on the same fetch leaves the table as the
    first run made it. *)
Theorem main_idempotent (fetched : list card) (table table' : list db_row) :
  main clean_text CARD_GAME_PTCG fetched table = inr table' ->
  main clean_text CARD_GAME_PTCG fetched table' = inr table'.
Proof.
  intros H. destruct (main_inr fetched table table' H) as (rows & Hrows & ->).
  unfold main. rewrite Hrows. simpl. fold (other_game CARD_GAME_PTCG).
  now rewrite filter_app, filter_idem, other_game_inserted, app_nil_r.
Qed.

(** X19: a creature card named "Chansey ex", "Electabuzz ex" or "Magmar ex"
    that is alone in its group gets no visible row: its bare name is not
    inserted, and the two rows inserted for it, "Name (SET NUM)" and
    "Name (SET)", are hidden. *)
Theorem ex_card_rows_hidden (c : card) (pieces : list string) :
  is_pokemon c = true ->
  existsb (String.eqb (name c)) ex_names = true ->
  gen_text c = inr pieces ->
  exists rows,
    iter_group clean_text [c] = inr rows
    /\ map db_name (insert_rows CARD_GAME_PTCG rows) = [name_set_num c; name_set c]
    /\ Forall (fun r => db_hidden r = true) (insert_rows CARD_GAME_PTCG rows).
Proof.
  intros Hp Hex Hg.
  assert (Hu : unique_in [c] = true) by reflexivity.
  assert (Hs : setunique_in c [c] = true).
  { unfold setunique_in, same_set_count. simpl. now rewrite String.eqb_refl. }
  assert (H1 : (name_set_num c =? name c) = false)
    by (apply String.eqb_neq, name_set_num_neq_name).
  assert (H2 : (name_set c =? name c) = false)
    by (apply String.eqb_neq, name_set_neq_name).
  eexists. split.
  - unfold iter_group. cbn [mapM].
    rewrite (process_card_rows clean_text c [c] pieces Hg).
    rewrite (cardnames_in_pokemon c [c] Hp), Hu, Hs. reflexivity.
  - cbn [List.concat map app fst snd].
    change (?r1 :: ?r2 :: [?r3]) with ([r1] ++ [r2] ++ [r3])%list.
    rewrite !insert_rows_app, !insert_rows_single. cbv zeta.
    rewrite !get_hacks_skip.
    cbn [row_cardname row_card row_filteredname row_description row_hidden].
    change (name (after_gen_text c)) with (name c).
    rewrite H1, H2, Hex, String.eqb_refl, !andb_false_r. simpl.
    split; [reflexivity | repeat constructor].
Qed.

End Loader.

Lemma main_replaces_game_rows_witness :
  filter (other_game 3)
         [mk_db_row 1 "forest" "Forest" "Forest | Land" false;
          mk_db_row 3 "potion" "Potion" "Potion | Trainer" false]
  = filter (other_game 3)
           [mk_db_row 1 "forest" "Forest" "Forest | Land" false;
            mk_db_row 3 "old" "Old" "Old" false].
Proof.
  apply (proj1 (main_replaces_game_rows clean_text_model 3
                  [potion "base1" "1999/01/09"]
                  [mk_db_row 1 "forest" "Forest" "Forest | Land" false;
                   mk_db_row 3 "old" "Old" "Old" false]
                  [mk_db_row 1 "forest" "Forest" "Forest | Land" false;
                   mk_db_row 3 "potion" "Potion" "Potion | Trainer" false]
                  eq_refl)).
Defined.

Lemma main_idempotent_witness :
  main clean_text_model 3 [potion "base1" "1999/01/09"]
    [mk_db_row 1 "forest" "Forest" "Forest | Land" false;
     mk_db_row 3 "potion" "Potion" "Potion | Trainer" false]
  = inr [mk_db_row 1 "forest" "Forest" "Forest | Land" false;
         mk_db_row 3 "potion" "Potion" "Potion | Trainer" false].
Proof.
  apply (main_idempotent clean_text_model 3 [potion "base1" "1999/01/09"]
           [mk_db_row 1 "forest" "Forest" "Forest | Land" false;
            mk_db_row 3 "old" "Old" "Old" false]).
  reflexivity.
Defined.

Lemma ex_card_rows_hidden_witness :
  exists rows,
    iter_group clean_text_model [chansey_ex] = inr rows
    /\ map db_name (insert_rows 3 rows) = [name_set_num chansey_ex; name_set chansey_ex]
    /\ Forall (fun r => db_hidden r = true) (insert_rows 3 rows).
Proof.
  apply (ex_card_rows_hidden clean_text_model 3 chansey_ex
           ["Chansey ex"; " ("; "EX5"; " "; "96"; ")"; " | "; "Pokémon"]);
    reflexivity.
Defined.

(** ** The fetcher *)

Lemma last_cons_default {A : Type} (a d : A) (l : list A) :
  last (a :: l) d = last l a.
Proof.
  revert a d. induction l as [|b l IH]; intros a d; [reflexivity|].
  change (last (a :: b :: l) d) with (last (b :: l) d).
  rewrite (IH b d). symmetry. apply IH.
Qed.

Section Fetching.

Variable urlopen : string -> py (list card * nat).

Lemma fetch_cards_loop_pages (pages : list (list card * nat)) :
  forall (steps page count total : nat) (after : py (list card * nat)),
    (forall i p, nth_error pages i = Some p ->
       urlopen (URL (page + i)) = inr p /\ fst p <> []) ->
    urlopen (URL (page + List.length pages)) = after ->
    List.length pages < steps ->
    forall ending,
      match after with
      | inl e => ending = inl e
      | inr ([], _) => ending = inr tt
      | inr (_ :: _, _) => False
      end ->
      exists lines,
        fetch_cards_loop urlopen steps page count total
        = Some (lines, List.concat (map fst pages), ending)
        /\ List.length lines = S (List.length pages)
        /\ last lines ""
           = str (count + List.length (List.concat (map fst pages)))
             ++ "/" ++ str (last (map snd pages) total).
Proof.
  induction pages as [|[data totalCount] pages IH];
    intros steps page count total after Hpages Hafter Hsteps ending Hending;
    (destruct steps as [|steps]; [simpl in Hsteps; lia|]).
  - simpl in Hafter. rewrite Nat.add_0_r in Hafter.
    exists [str count ++ "/" ++ str total].
    cbn [fetch_cards_loop]. rewrite Hafter.
    destruct after as [e|[[|c cs] t]]; [| |contradiction]; subst ending;
      simpl; rewrite Nat.add_0_r; auto.
  - destruct (Hpages 0 (data, totalCount) eq_refl) as [Hfirst Hne].
    rewrite Nat.add_0_r in Hfirst. simpl in Hne.
    destruct data as [|c data]; [congruence|].
    destruct (IH steps (page + 1) (count + List.length (c :: data)) totalCount after)
      with (ending := ending) as (lines & Hloop & Hlen & Hlast).
    + intros i p Hi. replace (page + 1 + i) with (page + S i) by lia.
      now apply Hpages.
    + rewrite <- Hafter. simpl. f_equal. f_equal. lia.
    + simpl in Hsteps. lia.
    + exact Hending.
    + exists ((str count ++ "/" ++ str total) :: lines).
      cbn [fetch_cards_loop]. rewrite Hfirst, Hloop.
      split; [reflexivity|]. split; [simpl; now rewrite Hlen|].
      destruct lines as [|line lines]; [discriminate|].
      change (last (_ :: line :: lines) "") with (last (line :: lines) "").
      rewrite Hlast. cbn [map fst snd List.concat].
      rewrite last_cons_default, length_app, Nat.add_assoc. reflexivity.
Qed.

(** X20: when the catalog serves non-empty pages 1 to k and then an empty
    page, [fetch_cards] ends after k + 1 requests, whatever the later pages
    hold: it yields the cards of the pages 1 to k in order, and prints
    k + 1 progress lines, the last of which gives the number of cards
    yielded and the total count of the last non-empty page. *)
Theorem fetch_cards_pages (pages : list (list card * nat)) (t steps : nat) :
  (forall i p, nth_error pages i = Some p ->
     urlopen (URL (S i)) = inr p /\ fst p <> []) ->
  urlopen (URL (S (List.length pages))) = inr ([], t) ->
  List.length pages < steps ->
  exists lines,
    fetch_cards urlopen steps = Some (lines, List.concat (map fst pages), inr tt)
    /\ List.length lines = S (List.length pages)
    /\ last lines ""
       = str (List.length (List.concat (map fst pages)))
         ++ "/" ++ str (last (map snd pages) 0).
Proof.
  intros Hpages Hempty Hsteps.
  exact (fetch_cards_loop_pages pages steps 1 0 0 (inr ([], t)) Hpages Hempty Hsteps
           (inr tt) eq_refl).
Qed.

(** X21: when the request of page k + 1 raises after non-empty pages 1 to
    k, [fetch_cards] has printed k + 1 progress lines and yielded the cards
    of the pages 1 to k, in order, and then raises that exception: the
    request is not tried again. *)
Theorem fetch_cards_raises (pages : list (list card * nat)) (e : pyexc) (steps : nat) :
  (forall i p, nth_error pages i = Some p ->
     urlopen (URL (S i)) = inr p /\ fst p <> []) ->
  urlopen (URL (S (List.length pages))) = inl e ->
  List.length pages < steps ->
  exists lines,
    fetch_cards urlopen steps = Some (lines, List.concat (map fst pages), inl e)
    /\ List.length lines = S (List.length pages)
    /\ last lines ""
       = str (List.length (List.concat (map fst pages)))
         ++ "/" ++ str (last (map snd pages) 0).
Proof.
  intros Hpages Hraise Hsteps.
  exact (fetch_cards_loop_pages pages steps 1 0 0 (inl e) Hpages Hraise Hsteps
           (inl e) eq_refl).
Qed.

End Fetching.

Lemma fetch_cards_pages_witness :
  exists lines,
    fetch_cards (catalog [([pikachu_base; pikachu_jungle], 3); ([chansey_ex], 3)]) 5
    = Some (lines, [pikachu_base; pikachu_jungle; chansey_ex], inr tt)
    /\ List.length lines = 3
    /\ last lines "" = "3/3".
Proof.
  apply (fetch_cards_pages
           (catalog [([pikachu_base; pikachu_jungle], 3); ([chansey_ex], 3)])
           [([pikachu_base; pikachu_jungle], 3); ([chansey_ex], 3)] 0 5).
  - intros [|[|[|i]]] p H; simpl in H; try discriminate; injection H as <-;
      (split; [reflexivity | discriminate]).
  - reflexivity.
  - simpl. lia.
Defined.

Lemma fetch_cards_raises_witness :
  exists lines,
    fetch_cards
      (fun url => if url =? URL 2 then inl ValueError
                  else catalog [([pikachu_base], 1)] url) 3
    = Some (lines, [pikachu_base], inl ValueError)
    /\ List.length lines = 2
    /\ last lines "" = "1/1".
Proof.
  apply (fetch_cards_raises
           (fun url => if url =? URL 2 then inl ValueError
                       else catalog [([pikachu_base], 1)] url)
           [([pikachu_base], 1)] ValueError 3).
  - intros [|[|i]] p H; simpl in H; try discriminate; injection H as <-;
      (split; [reflexivity | discriminate]).
  - reflexivity.
  - simpl. lia.
Defined.

(** ** The rows of the whole fetch *)



Section OtherRows.

Variable clean_text : string -> string.
Context `{U : StrUpper}.

Lemma other_group_rows (m : card) (grows : list row) :
  is_pokemon m = false ->
  iter_group clean_text [m] = inr grows ->
  map (fun r => (row_cardname r, row_hidden r, row_card r)) grows
  = [(name m, false, after_gen_text m)].
Proof.
  intros Hp H. destruct (iter_group_inr clean_text [m] grows H) as (crowss & Hf & ->).
  inversion Hf as [|? crows ? rest Hpc Hnil]; subst. inversion Hnil; subst.
  destruct (process_card_inr clean_text m [m] crows Hpc) as (pieces & _ & ->).
  unfold cardnames_in, gen_cardnames. rewrite Hp. reflexivity.
Qed.

Lemma pokemon_group_rows (group : list card) (grows : list row) :
  (forall c, In c group -> is_pokemon c = true) ->
  iter_group clean_text group = inr grows ->
  filter (fun r => negb (is_pokemon (row_card r))) grows = [].
Proof.
  intros Hp H. destruct (iter_group_inr clean_text group grows H) as (crowss & Hf & ->).
  apply filter_nothing. apply Forall_forall. intros r Hr.
  apply in_concat in Hr. destruct Hr as (crows & Hcrows & Hr).
  destruct (Forall2_in_r _ _ _ crows Hf Hcrows) as (c & Hc & Hpc).
  destruct (process_card_inr clean_text c group crows Hpc) as (pieces & _ & ->).
  apply in_map_iff in Hr. destruct Hr as (nh & <- & _). cbn [row_card].
  change (is_pokemon (after_gen_text c)) with (is_pokemon c).
  now rewrite (Hp c Hc).
Qed.

(** X23: when [iter_cards] returns, the rows of the cards that are no
    creatures are, in the order of the groups, one row for each card kept
    by [group_other_cards]: its bare name, not hidden, with the card as
    [gen_text] has left it. *)
Theorem iter_cards_other_rows (fetched : list card) (rows : list row) :
  iter_cards clean_text fetched = inr rows ->
  exists kept,
    group_other_cards clean_text (filter (fun c => negb (is_pokemon c)) fetched)
    = inr (map (fun m => [m]) kept)
    /\ map (fun r => (row_cardname r, row_hidden r, row_card r))
           (filter (fun r => negb (is_pokemon (row_card r))) rows)
       = map (fun m => (name m, false, after_gen_text m)) kept.
Proof.
  intros H. destruct (iter_cards_inr clean_text fetched rows H)
    as (groups & rowss & Hg & Hf & ->).
  rewrite group_cards_groups in Hg. injection Hg as <-.
  apply Forall2_app_inv_l in Hf. destruct Hf as (rs1 & rs2 & Hf1 & Hf2 & ->).
  rewrite concat_app, filter_app.
  assert (H1 : filter (fun r => negb (is_pokemon (row_card r))) (List.concat rs1) = []).
  { clear Hf2 H.
    assert (Hpk : forall g, In g (group_pkmn_cards clean_text (filter is_pokemon fetched)) ->
                            forall c, In c g -> is_pokemon c = true).
    { intros g Hg c Hc. apply group_pkmn_cards_members in Hg.
      destruct Hg as [_ Hall]. apply Hall in Hc. apply filter_In in Hc. tauto. }
    induction Hf1 as [|g grows gs rs1 Hig _ IH]; [reflexivity|].
    simpl. rewrite filter_app, IH by (intros; eapply Hpk; [right|]; eauto).
    rewrite (pokemon_group_rows g grows); [reflexivity| |exact Hig].
    apply Hpk. now left. }
  rewrite H1. simpl. clear H1 Hf1 H.
  rewrite group_other_cards_latest.
  set (others := filter (fun c => negb (is_pokemon c)) fetched) in *.
  assert (Hnp : forall g, In g (group_pkmn_cards clean_text others) ->
                  exists m, latest_of g = [m] /\ is_pokemon m = false).
  { intros g Hg. apply group_pkmn_cards_members in Hg. destruct Hg as [Hne Hall].
    destruct (latest_of_member g Hne) as (m & Hm & Hin).
    exists m. split; [exact Hm|]. apply Hall in Hin.
    apply filter_In in Hin. destruct Hin as [_ Hin]. now apply negb_true_iff in Hin. }
  revert rs2 Hf2.
  induction (group_pkmn_cards clean_text others) as [|g gs IH]; intros rs2 Hf2.
  - inversion Hf2; subst. exists []. split; reflexivity.
  - simpl in Hf2. inversion Hf2 as [|? grows ? rs2' Hig Hrest]; subst.
    destruct (Hnp g (or_introl eq_refl)) as (m & Hm & Hp).
    destruct (IH (fun g' Hg' => Hnp g' (or_intror Hg')) rs2' Hrest) as (kept & Hk & Hrows).
    exists (m :: kept). simpl. rewrite Hm in *. injection Hk as Hk. rewrite Hk.
    split; [reflexivity|].
    rewrite filter_app, map_app, Hrows.
    rewrite (filter_all (fun r => negb (is_pokemon (row_card r))) grows).
    + now rewrite (other_group_rows m grows Hp Hig).
    + pose proof (other_group_rows m grows Hp Hig) as Hrow.
      destruct grows as [|r [|r' grows]]; try discriminate.
      injection Hrow as _ _ Hc. repeat constructor. rewrite Hc.
      change (is_pokemon (after_gen_text m)) with (is_pokemon m). now rewrite Hp.
Qed.

End OtherRows.

Lemma iter_cards_other_rows_witness :
  exists kept,
    group_other_cards clean_text_model
      (filter (fun c => negb (is_pokemon c))
              [potion "base1" "1999/01/09"; unown_question; potion "base4" "2000/02/24"])
    = inr (map (fun m => [m]) kept)
    /\ map (fun r => (row_cardname r, row_hidden r, row_card r))
           (filter (fun r => negb (is_pokemon (row_card r)))
              [mk_row "Unown (NEO2 ?)" "unownneo2" "Unown (NEO2 ?) | Pokémon" true unown_question;
               mk_row "Unown (NEO2)" "unownneo2" "Unown (NEO2 ?) | Pokémon" true unown_question;
               mk_row "Unown" "unown" "Unown (NEO2 ?) | Pokémon" false unown_question;
               mk_row "Potion" "potion" "Potion | Trainer" false (potion "base4" "2000/02/24")])
       = map (fun m => (name m, false, after_gen_text m)) kept.
Proof.
  apply (iter_cards_other_rows clean_text_model
           [potion "base1" "1999/01/09"; unown_question; potion "base4" "2000/02/24"]).
  reflexivity.
Defined.
